(** * move_frame: locating, deleting, moving and copying beamer frames

    A shallow embedding of [tools/move_frame.py] and the properties of its
    frame index, its position arithmetic and its file effects.

    Python values are modelled as follows.
    - A [str] is the list of its code points ([N]).
    - A [list] of lines is a [list] of such strings; indices produced by
      the scanner are [nat], integers supplied by the caller are [Z].
    - A [Path] is a [string]; two paths denote the same document exactly
      when they are equal, which is the test the program itself applies.
    - The file system is a finite map from paths to file contents. *)

From Stdlib Require Import ZArith NArith Lia.

From Stdlib Require Import DecimalN DecimalFacts.

From stdpp Require Import base option list gmap strings.

Abbreviation str := (list N).

Abbreviation path := string.

(** ** Strings *)

(** The code points of a literal. *)
Definition lit (s : string) : str :=
  map Ascii.N_of_ascii (String.list_ascii_of_string s).

Definition NEWLINE : N := 10.

Definition HYPHEN : N := 45.

(** [s.split(sep)] for a one-character separator: never empty, one more
    piece than there are separators. *)
Fixpoint split_on (sep : N) (s : str) : list str :=
  match s with
  | [] => [[]]
  | c :: r =>
      if (c =? sep)%N then [] :: split_on sep r
      else match split_on sep r with
           | h :: t => (c :: h) :: t
           | [] => [[c]]
           end
  end.

(** [sep.join(pieces)]. *)
Fixpoint join_with (sep : N) (pieces : list str) : str :=
  match pieces with
  | [] => []
  | [p] => p
  | p :: rest => p ++ sep :: join_with sep rest
  end.

Definition split_lines (content : str) : list str := split_on NEWLINE content.

Definition join_lines (lines : list str) : str := join_with NEWLINE lines.

(** ** Regular expressions of the scanner

    Every pattern has the shape [\s*LITERAL] and is applied with
    [re.match], that is anchored at the start of the line.  No literal
    starts with a white-space character, so the greedy [\s*] never has to
    give a character back and the match is: skip white space, then compare
    the literal. *)

(** [\s] on [str] patterns: the Unicode white-space characters. *)
Definition is_space (c : N) : bool :=
  ((9 <=? c) && (c <=? 13) || (28 <=? c) && (c <=? 31) || (c =? 32)
   || (c =? 133) || (c =? 160) || (c =? 5760)
   || (8192 <=? c) && (c <=? 8202) || (c =? 8232) || (c =? 8233)
   || (c =? 8239) || (c =? 8287) || (c =? 12288))%N.

Fixpoint skip_space (s : str) : str :=
  match s with
  | c :: r => if is_space c then skip_space r else s
  | [] => []
  end.

Fixpoint starts_with (p s : str) : bool :=
  match p, s with
  | [], _ => true
  | a :: p', b :: s' => (a =? b)%N && starts_with p' s'
  | _ :: _, [] => false
  end.

Definition re_match (literal : str) (line : str) : bool :=
  starts_with literal (skip_space line).

(** [re.match(r'\s*\\againframe', line)] *)
Definition is_againframe : str -> bool := re_match (lit "\againframe").

(** [re.match(r'\s*\\begin\{frame\}', line)] *)
Definition is_begin : str -> bool := re_match (lit "\begin{frame}").

(** [re.match(r'\s*\\end\{frame\}', line)] *)
Definition is_end : str -> bool := re_match (lit "\end{frame}").

(** [re.match(r'\s*\\frame\{', line)] *)
Definition is_shorthand : str -> bool := re_match (lit "\frame{").

(** [re.match(r'\s*%', line)] *)
Definition is_comment : str -> bool := re_match (lit "%").

(** ** parse_frames *)

(** An entry of the frame index: the tuple
    [(start_idx, end_idx, frame_text)], [end_idx] exclusive. *)
Record frame := Frame {
  start_idx : nat;
  end_idx : nat;
  frame_text : str;
}.

(** [lines[a:b]] for [0 <= a], [0 <= b]. *)
Definition slice (lines : list str) (a b : nat) : list str :=
  drop a (take b lines).

(** Collect preceding comment lines:
    [while start_idx > 0 and re.match(r'\s*%', lines[start_idx - 1])]. *)
Fixpoint back_scan (lines : list str) (start : nat) : nat :=
  match start with
  | 0 => 0
  | S k =>
      match lines !! k with
      | Some l => if is_comment l then back_scan lines k else start
      | None => start
      end
  end.

(** One step of the depth counter: [if begin: depth += 1 elif end: depth -= 1]. *)
Definition depth_step (l : str) (depth : Z) : Z :=
  if is_begin l then (depth + 1)%Z
  else if is_end l then (depth - 1)%Z
  else depth.

(** Find the matching [\end{frame}]:
    [while end_idx < len(lines) and depth > 0].  Each turn advances
    [end_idx], so [length lines] turns always suffice. *)
Fixpoint find_end (fuel : nat) (lines : list str) (e : nat) (depth : Z) : nat :=
  match fuel with
  | 0 => e
  | S fuel' =>
      match lines !! e with
      | Some l =>
          if (0 <? depth)%Z
          then find_end fuel' lines (S e) (depth_step l depth)
          else e
      | None => e
      end
  end.

(** The main loop [while i < len(lines)], returning the frames appended
    from cursor [i] on.  Each turn advances the cursor. *)
Fixpoint parse_loop (fuel : nat) (lines : list str) (i : nat) : list frame :=
  match fuel with
  | 0 => []
  | S fuel' =>
      match lines !! i with
      | None => []
      | Some line =>
          if is_againframe line then parse_loop fuel' lines (S i)
          else if is_begin line then
            let s := back_scan lines i in
            let e := find_end (length lines) lines (S i) 1 in
            Frame s e (join_lines (slice lines s e))
              :: parse_loop fuel' lines e
          else if is_shorthand line then
            let s := back_scan lines i in
            Frame s (S i) (join_lines (slice lines s (S i)))
              :: parse_loop fuel' lines (S i)
          else parse_loop fuel' lines (S i)
      end
  end.

Definition parse_lines (lines : list str) : list frame :=
  parse_loop (length lines) lines 0.

Definition parse_frames (content : str) : list frame :=
  parse_lines (split_lines content).

(** ** Python sequences *)

(** [l[i]] for an arbitrary integer: negative indices count from the end;
    [None] stands for [IndexError]. *)
Definition py_index {A} (l : list A) (i : Z) : option A :=
  if (i <? 0)%Z
  then (if (i + Z.of_nat (length l) <? 0)%Z then None
        else l !! Z.to_nat (i + Z.of_nat (length l)))
  else l !! Z.to_nat i.

(** [l[:k]] and [l[k:]] for an arbitrary integer. *)
Definition py_take {A} (k : Z) (l : list A) : list A :=
  if (k <? 0)%Z then take (Z.to_nat (k + Z.of_nat (length l))) l
  else take (Z.to_nat k) l.

Definition py_drop {A} (k : Z) (l : list A) : list A :=
  if (k <? 0)%Z then drop (Z.to_nat (k + Z.of_nat (length l))) l
  else drop (Z.to_nat k) l.

(** [list(range(a, b))]. *)
Definition py_range (a b : Z) : list Z :=
  map (fun k => (a + Z.of_nat k)%Z) (seq 0 (Z.to_nat (b - a))).

(** ** parse_range *)

(** The three [ValueError]s the function can end with: its own two and the
    one of [int]. *)
Inductive value_error :=
  | InvalidRangeFormat (range_str : str)
  | InvalidRange (start stop : Z)
  | InvalidLiteral (text : str).

Section ParseRange.

(** The builtin [int] on strings; [None] is its [ValueError]. *)
Variable py_int : str -> option Z.

Definition parse_range (range_str : str) : value_error + list Z :=
  if bool_decide (HYPHEN ∈ range_str) then
    match split_on HYPHEN range_str with
    | [p0; p1] =>
        match py_int p0 with
        | None => inl (InvalidLiteral p0)
        | Some start =>
            match py_int p1 with
            | None => inl (InvalidLiteral p1)
            | Some stop =>
                if (stop <? start)%Z then inl (InvalidRange start stop)
                else inr (py_range start (stop + 1))
            end
        end
    | _ => inl (InvalidRangeFormat range_str)
    end
  else
    match py_int range_str with
    | None => inl (InvalidLiteral range_str)
    | Some n => inr [n]
    end.

End ParseRange.

(** ** Files, output and failures *)

(** How a range of positions is shown: [f"{first}-{last}"] or [str(first)]. *)
Inductive range_label :=
  | LabelRange (first last : Z)
  | LabelSingle (pos : Z).

(** Lines printed on standard output. *)
Inductive message :=
  | MsgNoFrames (file : path)
  | MsgFrames (file : path) (titles : list (nat * str))
  | MsgDeleted (label : range_label) (file : path)
  | MsgInserted (label : range_label) (to_pos : Z) (file : path)
  | MsgRemoved (label : range_label) (file : path)
  | MsgNothingToDo
  | MsgMoved (label : range_label) (to_pos : Z) (file : path).

Inductive usage := FromRequired | ToRequired.

(** The ways a run ends early: an error line on standard error followed by
    [sys.exit(1)], a usage error of the argument parser, or an exception
    nobody catches. *)
Inductive failure :=
  | ErrInputMissing (file : path)
  | ErrNoFrames (file : path)
  | ErrFromRange (pos : Z) (bound : nat)
  | ErrToRange (to_pos : Z) (bound : nat)
  | ErrOutputMissing (file : path)
  | ErrValue (e : value_error)
  | ErrUsage (u : usage)
  | IndexError
  | FileNotFoundError (file : path).

Record world := World {
  files : gmap path str;
  written : list path;
  printed : list message;
}.

Inductive outcome (A : Type) :=
  | Done (a : A)
  | Failed (f : failure).
Arguments Done {A} a.
Arguments Failed {A} f.

Definition io (A : Type) : Type := world -> outcome A * world.

#[global] Instance io_ret : MRet io := fun A a w => (Done a, w).
#[global] Instance io_bind : MBind io := fun A B k m w =>
  match m w with
  | (Done a, w') => k a w'
  | (Failed f, w') => (Failed f, w')
  end.

Definition fail {A} (f : failure) : io A := fun w => (Failed f, w).

Definition path_exists (p : path) : io bool :=
  fun w => (Done (bool_decide (is_Some (files w !! p))), w).

Definition read_text (p : path) : io str :=
  fun w => match files w !! p with
           | Some c => (Done c, w)
           | None => (Failed (FileNotFoundError p), w)
           end.

Definition write_text (p : path) (c : str) : io unit :=
  fun w => (Done (), World (<[p := c]> (files w)) (written w ++ [p]) (printed w)).

Definition print (m : message) : io unit :=
  fun w => (Done (), World (files w) (written w) (printed w ++ [m])).

(** A subscript that may raise [IndexError]. *)
Definition subscript {A} (o : option A) : io A :=
  match o with
  | Some a => mret a
  | None => fail IndexError
  end.

(** ** delete_frames and move_frames *)

(** [for pos in from_positions: if pos < 1 or pos > len(frames): ...]:
    the first position out of range, if any. *)
Fixpoint first_out_of_range (from_positions : list Z) (n : nat) : option Z :=
  match from_positions with
  | [] => None
  | pos :: rest =>
      if ((pos <? 1) || (Z.of_nat n <? pos))%Z then Some pos
      else first_out_of_range rest n
  end.

Definition validate_from (from_positions : list Z) (n : nat) : io unit :=
  match first_out_of_range from_positions n with
  | Some pos => fail (ErrFromRange pos n)
  | None => mret ()
  end.

(** Remove frames one by one,
    [lines = lines[:start_idx] + lines[end_idx:]] with
    [start_idx, end_idx, _ = frames[pos - 1]], in the order given. *)
Fixpoint remove_spans (frames : list frame) (positions : list Z)
    (lines : list str) : option (list str) :=
  match positions with
  | [] => Some lines
  | pos :: rest =>
      f ← py_index frames (pos - 1);
      remove_spans frames rest (take (start_idx f) lines ++ drop (end_idx f) lines)
  end.

(** [f"{a}-{b}" if len(from_positions) > 1 else str(from_positions[0])] *)
Definition from_range_str (from_positions : list Z) : option range_label :=
  if 1 <? length from_positions
  then first ← py_index from_positions 0;
       last ← py_index from_positions (-1);
       Some (LabelRange first last)
  else LabelSingle <$> py_index from_positions 0.

Definition delete_frames (input_file : path) (from_positions : list Z) : io unit :=
  content ← read_text input_file;
  let frames := parse_frames content in
  if bool_decide (frames = []) then fail (ErrNoFrames input_file) else
  validate_from from_positions (length frames);;
  let lines := split_lines content in
  lines ← subscript (remove_spans frames (reverse from_positions) lines);
  write_text input_file (join_lines lines);;
  label ← subscript (from_range_str from_positions);
  print (MsgDeleted label input_file).

(** [[frames[pos - 1][2] for pos in from_positions]] *)
Definition frame_texts (frames : list frame) (from_positions : list Z)
    : option (list str) :=
  mapM (fun pos => frame_text <$> py_index frames (pos - 1)) from_positions.

(** Insertion line of a cross-file operation (the two branches on
    [to_pos <= len(dest_frames)]). *)
Definition cross_insert_at (dest_frames : list frame) (dest_lines : list str)
    (to_pos : Z) : option nat :=
  if (to_pos <=? Z.of_nat (length dest_frames))%Z
  then start_idx <$> py_index dest_frames (to_pos - 1)
  else match dest_frames with
       | [] => Some (length dest_lines)
       | _ :: _ => end_idx <$> py_index dest_frames (-1)
       end.

Section InPlace.

Variable from_positions : list Z.

Variable to_pos : Z.

Variable first_frame_start : Z.

Variable removed_count : Z.

(** [s - removed_count if s > first_frame_start else s] *)
Definition adjust (s : nat) : Z :=
  if (first_frame_start <? Z.of_nat s)%Z
  then (Z.of_nat s - removed_count)%Z
  else Z.of_nat s.

(** The first loop over [enumerate(frames)], from index [i] with
    [remaining_frame_idx] kept frames counted so far: the value
    assigned to [insert_at] at the [break], or [None] when the loop
    runs to its end. *)
Fixpoint scan_insert (frames : list frame) (i : nat) (remaining_frame_idx : Z)
    : option Z :=
  match frames with
  | [] => None
  | f :: rest =>
      if bool_decide (Z.of_nat (i + 1) ∈ from_positions)
      then scan_insert rest (S i) remaining_frame_idx
      else
        let remaining_frame_idx := (remaining_frame_idx + 1)%Z in
        if (remaining_frame_idx =? to_pos)%Z
        then Some (adjust (start_idx f))
        else scan_insert rest (S i) remaining_frame_idx
  end.

(** The loop of the [else] clause: the adjusted end of the last frame
    that is not moved, [None] when there is none. *)
Fixpoint scan_last (frames : list frame) (i : nat) (last_remaining : option Z)
    : option Z :=
  match frames with
  | [] => last_remaining
  | f :: rest =>
      if bool_decide (Z.of_nat (i + 1) ∈ from_positions)
      then scan_last rest (S i) last_remaining
      else scan_last rest (S i) (Some (adjust (end_idx f)))
  end.

(** [insert_at] after the [for ... else]. *)
Definition inplace_insert_at (frames : list frame)
    (lines_without_moved : list str) : Z :=
  match scan_insert frames 0 0 with
  | Some at_ => at_
  | None =>
      match frames with
      | [] => 0%Z
      | _ :: _ =>
          match scan_last frames 0 None with
          | Some last_remaining =>
              (* [last_remaining if last_remaining else len(...)]: 0 is falsy *)
              if (last_remaining =? 0)%Z
              then Z.of_nat (length lines_without_moved)
              else last_remaining
          | None => Z.of_nat (length lines_without_moved)
          end
      end
  end.

End InPlace.

(** [output_file and output_file != input_file]: the destination of a
    cross-file operation, [None] for an in-place one.  A [Path] is always
    truthy, so the test is on [None] and on path equality. *)
Definition cross_file_target (input_file : path) (output_file : option path)
    : option path :=
  match output_file with
  | Some out => if bool_decide (out ≠ input_file) then Some out else None
  | None => None
  end.

Definition move_frames (input_file : path) (from_positions : list Z) (to_pos : Z)
    (output_file : option path) (copy_mode : bool) : io unit :=
  content ← read_text input_file;
  let frames := parse_frames content in
  if bool_decide (frames = []) then fail (ErrNoFrames input_file) else
  validate_from from_positions (length frames);;
  texts ← subscript (frame_texts frames from_positions);
  let combined_frame_text := join_lines texts in
  label ← subscript (from_range_str from_positions);
  match cross_file_target input_file output_file with
  | Some out =>
      (* Cross-file operation *)
      present ← path_exists out;
      if negb present then fail (ErrOutputMissing out) else
      dest_content ← read_text out;
      let dest_frames := parse_frames dest_content in
      if ((to_pos <? 1) || (Z.of_nat (length dest_frames) + 1 <? to_pos))%Z
      then fail (ErrToRange to_pos (length dest_frames + 1)) else
      let dest_lines := split_lines dest_content in
      insert_at ← subscript (cross_insert_at dest_frames dest_lines to_pos);
      let new_dest_lines :=
        take insert_at dest_lines ++ split_lines combined_frame_text
          ++ drop insert_at dest_lines in
      write_text out (join_lines new_dest_lines);;
      print (MsgInserted label to_pos out);;
      if negb copy_mode then
        let lines := split_lines content in
        lines ← subscript (remove_spans frames (reverse from_positions) lines);
        write_text input_file (join_lines lines);;
        print (MsgRemoved label input_file)
      else mret ()
  | None =>
      (* In-place operation *)
      if ((to_pos <? 1) || (Z.of_nat (length frames) <? to_pos))%Z
      then fail (ErrToRange to_pos (length frames)) else
      if bool_decide (length from_positions = 1
                      ∧ py_index from_positions 0 = Some to_pos)
      then print MsgNothingToDo else
      let lines := split_lines content in
      first ← subscript (py_index from_positions 0
                           ≫= fun pos => py_index frames (pos - 1));
      last ← subscript (py_index from_positions (-1)
                          ≫= fun pos => py_index frames (pos - 1));
      let first_frame_start := start_idx first in
      let last_frame_end := end_idx last in
      let lines_without_moved :=
        take first_frame_start lines ++ drop last_frame_end lines in
      let removed_count :=
        (Z.of_nat last_frame_end - Z.of_nat first_frame_start)%Z in
      let insert_at :=
        inplace_insert_at from_positions to_pos (Z.of_nat first_frame_start)
          removed_count frames lines_without_moved in
      let final_lines :=
        py_take insert_at lines_without_moved ++ split_lines combined_frame_text
          ++ py_drop insert_at lines_without_moved in
      let dest := default input_file output_file in
      write_text dest (join_lines final_lines);;
      print (MsgMoved label to_pos dest)
  end.

(** ** list_frames and main *)

(** The parsed command line. *)
Record args := Args {
  arg_input_file : path;
  arg_from_pos : option str;
  arg_to_pos : option Z;
  arg_output : option path;
  arg_copy : bool;
  arg_move : bool;
  arg_delete : bool;
  arg_list : bool;
}.

Section Main.

(** The builtin [int] on strings; [None] is its [ValueError]. *)
Variable py_int : str -> option Z.

(** [get_frame_title], a regular-expression search used for listing only. *)
Variable get_frame_title : str -> str.

Definition list_frames (input_file : path) : io unit :=
  content ← read_text input_file;
  let frames := parse_frames content in
  if bool_decide (frames = []) then print (MsgNoFrames input_file) else
  print (MsgFrames input_file
           (imap (fun i f => (i + 1, get_frame_title (frame_text f))) frames)).

Definition main (a : args) : io unit :=
  present ← path_exists (arg_input_file a);
  if negb present then fail (ErrInputMissing (arg_input_file a)) else
  if arg_list a then list_frames (arg_input_file a) else
  match arg_from_pos a with
  | None => fail (ErrUsage FromRequired)
  | Some from_pos =>
      if arg_delete a then
        match parse_range py_int from_pos with
        | inl e => fail (ErrValue e)
        | inr from_positions => delete_frames (arg_input_file a) from_positions
        end
      else
        match arg_to_pos a with
        | None => fail (ErrUsage ToRequired)
        | Some to_pos =>
            match parse_range py_int from_pos with
            | inl e => fail (ErrValue e)
            | inr from_positions =>
                let copy_mode := arg_copy a && negb (arg_move a) in
                move_frames (arg_input_file a) from_positions to_pos
                  (arg_output a) copy_mode
            end
        end
  end.

End Main.

(** A world holding the given files, nothing written or printed yet. *)
Definition world_of (fs : list (path * str)) : world :=
  World (list_to_map fs) [] [].

(** ** get_frame_title

    [list_frames] above takes the title of a frame text as a parameter;
    this is the function the program passes.  Its two patterns are
    applied with [re.search]:
    the leftmost position at which the pattern matches, with greedy
    quantifiers that give characters back when what follows fails. *)

(** The constructs the two patterns are made of. *)
Inductive regex :=
  | Lit (l : str)               (* literal characters, escaped or not *)
  | Star (cls : N -> bool)      (* [[...]*] on a character class *)
  | Plus (cls : N -> bool)      (* [\w+] *)
  | Opt (r : regex)             (* [(?:r)?] *)
  | Group (r : regex)           (* [(r)], the group numbered 1 *)
  | Seq (r1 r2 : regex).

(** Greedy repetition of a class: the longest run first, then shorter
    ones, until the continuation [k] accepts what is left. *)
Fixpoint star {A} (cls : N -> bool) (s : str) (k : str -> option A) : option A :=
  match s with
  | c :: r =>
      if cls c
      then match star cls r k with
           | Some x => Some x
           | None => k s
           end
      else k s
  | [] => k []
  end.

(** Match [r] at the head of [s], then continue with [k] on the rest; [g]
    is what group 1 holds so far. *)
Fixpoint rmatch {A} (r : regex) (s : str) (g : option str)
    (k : str -> option str -> option A) : option A :=
  match r with
  | Lit l => if starts_with l s then k (drop (length l) s) g else None
  | Star cls => star cls s (fun s' => k s' g)
  | Plus cls =>
      match s with
      | c :: s' => if cls c then star cls s' (fun s'' => k s'' g) else None
      | [] => None
      end
  | Opt r =>
      match rmatch r s g k with
      | Some x => Some x
      | None => k s g
      end
  | Group r =>
      rmatch r s g (fun s' _ => k s' (Some (take (length s - length s') s)))
  | Seq r1 r2 => rmatch r1 s g (fun s' g' => rmatch r2 s' g' k)
  end.

(** [re.search(r, s)]: the match at the leftmost position that has one,
    given by its group 1; [None] when there is no match. *)
Fixpoint re_search (r : regex) (s : str) : option (option str) :=
  match rmatch r s None (fun _ g => Some g) with
  | Some g => Some g
  | None =>
      match s with
      | [] => None
      | _ :: s' => re_search r s'
      end
  end.

Definition BACKSLASH : N := 92.

Definition LANGLE : N := 60.

Definition RANGLE : N := 62.

Definition LBRACKET : N := 91.

Definition RBRACKET : N := 93.

Definition LBRACE : N := 123.

Definition RBRACE : N := 125.

(** The class [[^c]]. *)
Definition not_char (c : N) : N -> bool := fun x => negb (x =? c)%N.

(** The first pattern: [\\begin\{frame\}], then optionally [<[^>]*>],
    optionally [\[[^\]]*\]], then [\{], the group [[^}]*] and [\}]. *)
Definition begin_title : regex :=
  Seq (Lit (lit "\begin{frame}"))
    (Seq (Opt (Seq (Lit [LANGLE]) (Seq (Star (not_char RANGLE)) (Lit [RANGLE]))))
       (Seq (Opt (Seq (Lit [LBRACKET])
                    (Seq (Star (not_char RBRACKET)) (Lit [RBRACKET]))))
          (Seq (Lit [LBRACE])
             (Seq (Group (Star (not_char RBRACE))) (Lit [RBRACE]))))).

Section Title.

(** [\w] on [str] patterns beyond ASCII: the alphanumeric characters of
    the interpreter's Unicode tables. *)
Variable unicode_word : N -> bool.

(** [\w]: [[a-zA-Z0-9_]] within ASCII. *)
Definition is_word (c : N) : bool :=
  if (c <? 128)%N
  then ((48 <=? c) && (c <=? 57) || (65 <=? c) && (c <=? 90) || (c =? 95)
        || (97 <=? c) && (c <=? 122))%N
  else unicode_word c.

(** The second pattern: [\\frame\{\\], the group [\w+] and [\}]. *)
Definition shorthand_title : regex :=
  Seq (Lit (lit "\frame{\")) (Seq (Group (Plus is_word)) (Lit [RBRACE])).

(** Group 1 takes part in every match of either pattern, so the [None]
    of a group that did not is only a default here. *)
Definition get_frame_title (frame_text : str) : str :=
  match re_search begin_title frame_text with
  | Some g => default [] g
  | None =>
      match re_search shorthand_title frame_text with
      | Some g => BACKSLASH :: default [] g
      | None => lit "(no title)"
      end
  end.

End Title.

(** * Vocabulary of the statements *)

(** ** Lines and loops, structurally *)

(** The lines at which the main loop starts a frame. *)
Definition opens (l : str) : bool := is_begin l || is_shorthand l.

(** Length of the run of comment lines at the head of a list. *)
Fixpoint comment_run (ls : list str) : nat :=
  match ls with
  | l :: r => if is_comment l then S (comment_run r) else 0
  | [] => 0
  end.

(** Number of lines the search for the matching end consumes. *)
Fixpoint scan (suf : list str) (depth : Z) : nat :=
  match suf with
  | [] => 0
  | l :: r => if (0 <? depth)%Z then S (scan r (depth_step l depth)) else 0
  end.

(** The frames found from cursor [i] on, with exactly the turns needed. *)
Definition parse_from (lines : list str) (i : nat) : list frame :=
  parse_loop (length lines - i) lines i.

(** The depth counter after the given lines. *)
Definition depth_after (ls : list str) (depth : Z) : Z :=
  foldl (fun d l => depth_step l d) depth ls.

(** The line that opens a frame: the first line of its span that is not a
    comment line. *)
Definition opener_idx (lines : list str) (f : frame) : nat :=
  start_idx f + comment_run (drop (start_idx f) lines).

(** ** Layouts

    A layout cuts a document into blocks.  A block is a gap of lines the
    main loop steps over, the comment lines right above the frame, the
    line that opens the frame and the lines up to its end.  Every document
    has a layout, and [parse_lines] returns exactly the spans of its
    blocks.  All later facts about the frame index are read off layouts. *)

Record block := Block {
  gap : list str;
  comments : list str;
  opener : str;
  body : list str;
}.

Definition block_lines (b : block) : list str :=
  comments b ++ opener b :: body b.

Definition segment (b : block) : list str := gap b ++ block_lines b.

Fixpoint render (bs : list block) (tail : list str) : list str :=
  match bs with
  | [] => tail
  | b :: rest => segment b ++ render rest tail
  end.

(** The depth first drops to zero on the last line of [body]. *)
Fixpoint closes (body : list str) (depth : Z) : bool :=
  match body with
  | [] => false
  | l :: r =>
      if (0 <? depth_step l depth)%Z then closes r (depth_step l depth)
      else bool_decide (r = [])
  end.

(** The depth stays positive through all of [body]. *)
Fixpoint stays_open (body : list str) (depth : Z) : bool :=
  match body with
  | [] => true
  | l :: r => (0 <? depth_step l depth)%Z && stays_open r (depth_step l depth)
  end.

(** No comment line at the end: the back-scan of a frame that starts right
    after these lines stops at once. *)
Definition pre_ok (pre : list str) : Prop :=
  ∀ l, last pre = Some l → is_comment l = false.

Record wf_block (b : block) : Prop := {
  wf_gap : Forall (fun l => opens l = false) (gap b);
  wf_gap_end : pre_ok (gap b);
  wf_comments : Forall (fun l => is_comment l = true) (comments b);
  wf_opener : opens (opener b) = true;
  wf_shorthand : is_begin (opener b) = false → body b = [];
}.

Definition closed (b : block) : Prop :=
  is_begin (opener b) = true → closes (body b) 1 = true.

Definition unterminated (b : block) : Prop :=
  is_begin (opener b) = true ∧ stays_open (body b) 1 = true.

Fixpoint wf_layout (bs : list block) (tail : list str) : Prop :=
  match bs with
  | [] => Forall (fun l => opens l = false) tail
  | b :: rest =>
      wf_block b ∧
      (closed b ∧ wf_layout rest tail ∨ unterminated b ∧ rest = [] ∧ tail = [])
  end.

(** The index entries of a layout that starts at line [off]. *)
Fixpoint spans (off : nat) (bs : list block) : list frame :=
  match bs with
  | [] => []
  | b :: rest =>
      let s := off + length (gap b) in
      let e := s + length (block_lines b) in
      Frame s e (join_lines (block_lines b)) :: spans e rest
  end.

(** ** Positions and failures *)

Definition in_range (n : nat) (pos : Z) : Prop := (1 <= pos <= Z.of_nat n)%Z.

(** What a failure of [delete_frames] or [move_frames] tells about the
    call: the value that was refused and the bound it was checked
    against, or the file that was missing or without frames.
    [to_pos] is [None] for a deletion. *)
Definition failure_cause (input_file : path) (from_positions : list Z)
    (to_pos : option Z) (output_file : option path) (w : world)
    (f : failure) : Prop :=
  match f with
  | ErrNoFrames file =>
      file = input_file
      ∧ ∃ content, files w !! input_file = Some content
                   ∧ parse_frames content = []
  | ErrFromRange pos bound =>
      pos ∈ from_positions ∧ ((pos < 1)%Z ∨ (Z.of_nat bound < pos)%Z)
      ∧ ∃ content, files w !! input_file = Some content
                   ∧ bound = length (parse_frames content)
  | ErrToRange pos bound =>
      to_pos = Some pos ∧ ((pos < 1)%Z ∨ (Z.of_nat bound < pos)%Z)
      ∧ ∃ content,
          match cross_file_target input_file output_file with
          | Some out => files w !! out = Some content
                        ∧ bound = length (parse_frames content) + 1
          | None => files w !! input_file = Some content
                    ∧ bound = length (parse_frames content)
          end
  | ErrOutputMissing file =>
      cross_file_target input_file output_file = Some file
      ∧ files w !! file = None
  | FileNotFoundError file => file = input_file ∧ files w !! file = None
  | _ => False
  end.

Section Reports.
(** The builtin [int] on strings; [None] is its [ValueError]. *)
Variable py_int : str -> option Z.

(** What a [ValueError] of [parse_range] tells about the token. *)
Definition token_error (tok : str) (e : value_error) : Prop :=
  match e with
  | InvalidRangeFormat s => s = tok ∧ length (split_on HYPHEN tok) ≠ 2
  | InvalidRange start stop =>
      (stop < start)%Z
      ∧ ∃ p0 p1, split_on HYPHEN tok = [p0; p1]
                 ∧ py_int p0 = Some start ∧ py_int p1 = Some stop
  | InvalidLiteral text => text ∈ split_on HYPHEN tok ∧ py_int text = None
  end.

(** What the failure of a run tells about its command line. *)
Definition well_reported (a : args) (w : world) (f : failure) : Prop :=
  match f with
  | ErrInputMissing file =>
      file = arg_input_file a ∧ files w !! file = None
  | ErrUsage FromRequired => arg_from_pos a = None
  | ErrUsage ToRequired => arg_to_pos a = None
  | ErrValue e => ∃ tok, arg_from_pos a = Some tok ∧ token_error tok e
  | IndexError | FileNotFoundError _ => False
  | _ =>
      ∃ tok from_positions,
        arg_from_pos a = Some tok
        ∧ parse_range py_int tok = inr from_positions
        ∧ failure_cause (arg_input_file a) from_positions
            (if arg_delete a then None else arg_to_pos a)
            (if arg_delete a then None else arg_output a) w f
  end.

End Reports.

(** ** Decimal numerals *)

(** The decimal numeral of a natural number, as Python prints it. *)
Fixpoint uint_codes (u : Decimal.uint) : str :=
  match u with
  | Decimal.Nil => []
  | Decimal.D0 u => 48%N :: uint_codes u
  | Decimal.D1 u => 49%N :: uint_codes u
  | Decimal.D2 u => 50%N :: uint_codes u
  | Decimal.D3 u => 51%N :: uint_codes u
  | Decimal.D4 u => 52%N :: uint_codes u
  | Decimal.D5 u => 53%N :: uint_codes u
  | Decimal.D6 u => 54%N :: uint_codes u
  | Decimal.D7 u => 55%N :: uint_codes u
  | Decimal.D8 u => 56%N :: uint_codes u
  | Decimal.D9 u => 57%N :: uint_codes u
  end.

Definition decimal (n : N) : str := uint_codes (N.to_uint n).

(** An [int] for the examples: it reads the non-empty strings of ASCII
    decimal digits.  The builtin accepts these and more. *)
Fixpoint codes_uint (s : str) : option Decimal.uint :=
  match s with
  | [] => Some Decimal.Nil
  | c :: r =>
      u ← codes_uint r;
      if (c =? 48)%N then Some (Decimal.D0 u)
      else if (c =? 49)%N then Some (Decimal.D1 u)
      else if (c =? 50)%N then Some (Decimal.D2 u)
      else if (c =? 51)%N then Some (Decimal.D3 u)
      else if (c =? 52)%N then Some (Decimal.D4 u)
      else if (c =? 53)%N then Some (Decimal.D5 u)
      else if (c =? 54)%N then Some (Decimal.D6 u)
      else if (c =? 55)%N then Some (Decimal.D7 u)
      else if (c =? 56)%N then Some (Decimal.D8 u)
      else if (c =? 57)%N then Some (Decimal.D9 u)
      else None
  end.

Definition int_of_digits (s : str) : option Z :=
  match s with
  | [] => None
  | _ :: _ => (fun u => Z.of_N (N.of_uint u)) <$> codes_uint s
  end.

(** ** Sample documents *)

(** Three frames with a line of text between the first two. *)
Definition three_frames : str := lit "\frame{a}
\section{Two}
\frame{b}
\frame{c}".

Definition one_frame : str := lit "intro
\frame{z}".

Definition four_frames : str := lit "% first
\begin{frame}{A}
\end{frame}

\frame{B}
text
\begin{frame}{C}
\end{frame}
\frame{D}".

Definition comment_demo : str := lit "% left behind

% kept
  % kept too
\begin{frame}{A}
\end{frame}".

Definition nested_demo : str := lit "\begin{frame}{outer}
  \begin{frame}{inner}
  \end{frame}
\end{frame}
\frame{next}".

(** ** Tactics *)

Ltac run_io :=
  unfold subscript, validate_from, read_text, write_text, print, path_exists,
    fail in *;
  unfold mbind, io_bind, mret, io_ret in *.

(** Case analysis on a scrutinee that contains no other case analysis. *)
Ltac case_inner :=
  match goal with
  | |- context [match ?x with _ => _ end] =>
      lazymatch x with
      | context [match _ with _ => _ end] => fail
      | _ => destruct x eqn:?
      end
  end.


(** ** Cutting and pasting blocks *)

(** A block with another gap in front. *)
Definition with_gap (g : list str) (b : block) : block :=
  Block g (comments b) (opener b) (body b).

(** The frame texts of the blocks of a layout. *)
Definition texts (bs : list block) : list str :=
  (fun b => join_lines (block_lines b)) <$> bs.

(** [gap] lines put in front of what follows a cut: they join the gap of
    the next block or, after the last block, the tail. *)
Definition graft (g : list str) (bs : list block) (tail : list str)
    : list block * list str :=
  match bs with
  | [] => ([], g ++ tail)
  | b :: rest => (with_gap (g ++ gap b) b :: rest, tail)
  end.

(** Blocks pasted behind the lines [g]: the first takes [g] as its gap,
    the others follow without a gap. *)
Definition paste (g : list str) (bs : list block) : list block :=
  match bs with
  | [] => []
  | b :: rest => with_gap g b :: (with_gap [] <$> rest)
  end.

(** A frame of the index that does not run on to the end of the text for
    want of an end line: a shorthand frame, or a frame whose depth counter
    is back at zero after its last line. *)
Definition terminated (lines : list str) (f : frame) : Prop :=
  let b := opener_idx lines f in
  (∃ op, lines !! b = Some op ∧ is_begin op = false)
  ∨ depth_after (slice lines (S b) (end_idx f)) 1 = 0%Z.

(** ** Frame titles *)

(** [l in s]: the literal occurs somewhere in the string. *)
Fixpoint occurs (l s : str) : bool :=
  starts_with l s
  || match s with
     | [] => false
     | _ :: r => occurs l r
     end.

(** An optional bracketed part: nothing, or [open] and [close] around
    characters other than [close]. *)
Definition bracketed (open close : N) (s : str) : Prop :=
  s = [] ∨ ∃ inner, s = open :: inner ++ [close] ∧ close ∉ inner.

(** Wherever [\begin{frame}] occurs, what follows it does not start with
    [<], [[] or [{]. *)
Fixpoint untitled (s : str) : bool :=
  (if starts_with (lit "\begin{frame}") s
   then match drop (length (lit "\begin{frame}")) s with
        | [] => true
        | c :: _ => negb ((c =? LANGLE) || (c =? LBRACKET) || (c =? LBRACE))%N
        end
   else true)
  && match s with
     | [] => true
     | _ :: r => untitled r
     end.

(** * Properties *)

(** ** Splitting and joining *)


#[global] Arguments join_with : simpl never.
#[global] Arguments split_on : simpl never.

Example parse_frames_demo :
  parse_frames (lit "% title
\frame{\titlepage}

\begin{frame}{A}
\end{frame}")
  = [ Frame 0 2 (lit "% title
\frame{\titlepage}");
      Frame 3 5 (lit "\begin{frame}{A}
\end{frame}") ].
Proof. vm_compute. reflexivity. Qed.

Lemma split_on_nil sep : split_on sep [] = [[]].
Proof. reflexivity. Qed.

Lemma split_on_cons sep c r :
  split_on sep (c :: r) =
    if (c =? sep)%N then [] :: split_on sep r
    else match split_on sep r with
         | h :: t => (c :: h) :: t
         | [] => [[c]]
         end.
Proof. reflexivity. Qed.

Lemma split_on_nonempty sep s : split_on sep s ≠ [].
Proof.
  destruct s as [|c r]; [done|].
  rewrite split_on_cons. destruct (c =? sep)%N; [done|].
  by destruct (split_on sep r).
Qed.

Lemma join_with_single sep p : join_with sep [p] = p.
Proof. reflexivity. Qed.

Lemma join_with_cons sep p q rest :
  join_with sep (p :: q :: rest) = p ++ sep :: join_with sep (q :: rest).
Proof. reflexivity. Qed.

Lemma join_split sep s : join_with sep (split_on sep s) = s.
Proof.
  induction s as [|c r IH]; [done|].
  rewrite split_on_cons.
  pose proof (split_on_nonempty sep r) as Hn.
  destruct (N.eqb_spec c sep) as [->|Hne].
  - destruct (split_on sep r) as [|h t]; [done|].
    rewrite join_with_cons, IH. reflexivity.
  - destruct (split_on sep r) as [|h t]; [done|].
    destruct t as [|h' t'].
    + rewrite join_with_single in *. by rewrite IH.
    + rewrite join_with_cons in *. rewrite <- IH. reflexivity.
Qed.

Lemma split_on_no_sep sep s : Forall (fun p => sep ∉ p) (split_on sep s).
Proof.
  induction s as [|c r IH].
  - rewrite split_on_nil. repeat constructor. by intros ?%elem_of_nil.
  - rewrite split_on_cons. destruct (N.eqb_spec c sep) as [->|Hne].
    + constructor; [by intros ?%elem_of_nil | done].
    + destruct (split_on sep r) as [|h t].
      * repeat constructor. intros [->|?%elem_of_nil]%elem_of_cons; done.
      * inversion_clear IH. constructor; [|done].
        intros [->|?]%elem_of_cons; done.
Qed.

Lemma split_on_piece sep p : sep ∉ p → split_on sep p = [p].
Proof.
  induction p as [|c r IH]; intros Hn; [done|].
  rewrite split_on_cons. destruct (N.eqb_spec c sep) as [->|Hne].
  - exfalso. apply Hn. by left.
  - rewrite IH; [done|]. intros ?. apply Hn. by right.
Qed.

Lemma split_on_app_sep sep p rest :
  sep ∉ p → split_on sep (p ++ sep :: rest) = p :: split_on sep rest.
Proof.
  induction p as [|c r IH]; intros Hn.
  - simpl app. by rewrite split_on_cons, N.eqb_refl.
  - simpl app. rewrite split_on_cons. destruct (N.eqb_spec c sep) as [->|Hne].
    + exfalso. apply Hn. by left.
    + rewrite IH; [done|]. intros ?. apply Hn. by right.
Qed.

Lemma split_join sep l :
  l ≠ [] → Forall (fun p => sep ∉ p) l → split_on sep (join_with sep l) = l.
Proof.
  induction l as [|p rest IH]; [done|]. intros _ Hall.
  inversion_clear Hall as [|? ? Hp Hrest].
  destruct rest as [|q rest'].
  - rewrite join_with_single. by apply split_on_piece.
  - rewrite join_with_cons, split_on_app_sep by done.
    by rewrite IH.
Qed.

Lemma join_with_app sep l1 l2 :
  l1 ≠ [] → l2 ≠ [] →
  join_with sep (l1 ++ l2) = join_with sep l1 ++ sep :: join_with sep l2.
Proof.
  induction l1 as [|p rest IH]; [done|]. intros _ H2.
  destruct rest as [|q rest'].
  - destruct l2; [done|]. reflexivity.
  - change ((p :: q :: rest') ++ l2) with (p :: q :: (rest' ++ l2)).
    rewrite !join_with_cons.
    change (q :: rest' ++ l2) with ((q :: rest') ++ l2).
    rewrite IH by done. by rewrite <- app_assoc.
Qed.

(** Joining the joined texts of several runs of lines is joining all the
    lines. *)
Lemma join_with_concat sep (ls : list (list str)) :
  Forall (fun l => l ≠ []) ls →
  join_with sep (map (join_with sep) ls) = join_with sep (concat ls).
Proof.
  induction ls as [|l rest IH]; [done|]. intros Hall.
  inversion_clear Hall as [|? ? Hl Hrest].
  destruct rest as [|l' rest'].
  - simpl. by rewrite app_nil_r.
  - rewrite !map_cons, join_with_cons, <- map_cons, IH by done.
    change (concat (l :: l' :: rest')) with (l ++ concat (l' :: rest')).
    rewrite join_with_app; [done|done|].
    inversion_clear Hrest. simpl. by destruct l'.
Qed.

Lemma split_lines_nonempty content : split_lines content ≠ [].
Proof. apply split_on_nonempty. Qed.

Lemma split_lines_no_newline content :
  Forall (fun p => NEWLINE ∉ p) (split_lines content).
Proof. apply split_on_no_sep. Qed.

Lemma join_split_lines content : join_lines (split_lines content) = content.
Proof. apply join_split. Qed.

Lemma split_join_lines lines :
  lines ≠ [] → Forall (fun p => NEWLINE ∉ p) lines →
  split_lines (join_lines lines) = lines.
Proof. apply split_join. Qed.

(** ** The kinds of line are exclusive *)

Lemma starts_with_compat p q s :
  starts_with p s = true → starts_with q s = true →
  starts_with p q || starts_with q p = true.
Proof.
  revert p q. induction s as [|c s IH]; intros [|a p] [|b q]; simpl; try done.
  intros [Ha Hp]%andb_true_iff [Hb Hq]%andb_true_iff.
  apply N.eqb_eq in Ha as ->. apply N.eqb_eq in Hb as ->.
  rewrite N.eqb_refl. simpl. by apply IH.
Qed.

Lemma re_match_exclusive p q l :
  starts_with p q || starts_with q p = false →
  re_match p l = true → re_match q l = false.
Proof.
  unfold re_match. intros Hpq Hp.
  destruct (starts_with q (skip_space l)) eqn:Hq; [|done].
  by rewrite (starts_with_compat _ _ _ Hp Hq) in Hpq.
Qed.

Lemma comment_not_begin l : is_comment l = true → is_begin l = false.
Proof. by apply re_match_exclusive. Qed.

Lemma comment_not_shorthand l : is_comment l = true → is_shorthand l = false.
Proof. by apply re_match_exclusive. Qed.

Lemma comment_not_againframe l : is_comment l = true → is_againframe l = false.
Proof. by apply re_match_exclusive. Qed.

Lemma end_not_comment l : is_end l = true → is_comment l = false.
Proof. by apply re_match_exclusive. Qed.

Lemma end_not_begin l : is_end l = true → is_begin l = false.
Proof. by apply re_match_exclusive. Qed.

Lemma shorthand_not_comment l : is_shorthand l = true → is_comment l = false.
Proof. by apply re_match_exclusive. Qed.

Lemma shorthand_not_begin l : is_shorthand l = true → is_begin l = false.
Proof. by apply re_match_exclusive. Qed.

Lemma shorthand_not_againframe l : is_shorthand l = true → is_againframe l = false.
Proof. by apply re_match_exclusive. Qed.

Lemma begin_not_comment l : is_begin l = true → is_comment l = false.
Proof. by apply re_match_exclusive. Qed.

Lemma begin_not_againframe l : is_begin l = true → is_againframe l = false.
Proof. by apply re_match_exclusive. Qed.

Lemma comment_not_opens l : is_comment l = true → opens l = false.
Proof.
  intros H. unfold opens.
  by rewrite (comment_not_begin l H), (comment_not_shorthand l H).
Qed.

(** ** The loops, structurally *)

Lemma comment_run_le ls : comment_run ls ≤ length ls.
Proof. induction ls as [|l r IH]; simpl; [lia|]. destruct (is_comment l); lia. Qed.

Lemma scan_le suf d : scan suf d ≤ length suf.
Proof.
  revert d. induction suf as [|l r IH]; intros d; simpl; [lia|].
  destruct (0 <? d)%Z; [|lia]. specialize (IH (depth_step l d)). lia.
Qed.

Lemma back_scan_spec lines i :
  i ≤ length lines →
  back_scan lines i = i - comment_run (reverse (take i lines)).
Proof.
  induction i as [|k IH]; intros Hi; [done|].
  destruct (lookup_lt_is_Some_2 lines k) as [l Hl]; [lia|].
  simpl. rewrite Hl, (take_S_r _ _ _ Hl), reverse_snoc. simpl.
  destruct (is_comment l); [|lia].
  rewrite IH by lia. lia.
Qed.

Lemma back_scan_le lines i : back_scan lines i ≤ i.
Proof.
  induction i as [|k IH]; simpl; [lia|].
  destruct (lines !! k); [|lia]. destruct (is_comment _); lia.
Qed.

Lemma find_end_spec fuel lines e d :
  length lines - e ≤ fuel →
  find_end fuel lines e d = e + scan (drop e lines) d.
Proof.
  revert e d. induction fuel as [|fuel IH]; intros e d Hf.
  - rewrite drop_ge by lia. simpl. lia.
  - simpl. destruct (lines !! e) as [l|] eqn:Hl.
    + rewrite (drop_S _ _ _ Hl). simpl.
      destruct (0 <? d)%Z; [|lia]. rewrite IH by lia. lia.
    + apply lookup_ge_None in Hl. rewrite drop_ge by lia. simpl. lia.
Qed.

Lemma find_end_bounds lines e d :
  e ≤ length lines →
  e ≤ find_end (length lines) lines e d ≤ length lines.
Proof.
  intros He. rewrite find_end_spec by lia.
  pose proof (scan_le (drop e lines) d) as H. rewrite length_drop in H. lia.
Qed.

Lemma parse_loop_fuel_irrelevant lines fuel fuel' i :
  length lines - i ≤ fuel → length lines - i ≤ fuel' →
  parse_loop fuel lines i = parse_loop fuel' lines i.
Proof.
  revert fuel' i. induction fuel as [|fuel IH]; intros fuel' i Hf Hf'.
  - assert (lines !! i = None) as Hn by (apply lookup_ge_None; lia).
    destruct fuel'; simpl; [done|]. by rewrite Hn.
  - destruct fuel' as [|fuel'].
    + assert (lines !! i = None) as Hn by (apply lookup_ge_None; lia).
      simpl. by rewrite Hn.
    + simpl. destruct (lines !! i) as [l|] eqn:Hl; [|done].
      apply lookup_lt_Some in Hl.
      pose proof (find_end_bounds lines (S i) 1 ltac:(lia)) as He.
      repeat case_match; first [apply IH; lia | f_equal; apply IH; lia].
Qed.

Lemma parse_loop_enough lines fuel i :
  length lines - i ≤ fuel → parse_loop fuel lines i = parse_from lines i.
Proof. intros. apply parse_loop_fuel_irrelevant; lia. Qed.

Lemma parse_lines_from lines : parse_lines lines = parse_from lines 0.
Proof. unfold parse_lines. apply parse_loop_enough. lia. Qed.

Lemma parse_from_end lines i : length lines ≤ i → parse_from lines i = [].
Proof.
  intros H. unfold parse_from. replace (length lines - i) with 0 by lia. done.
Qed.

Lemma parse_from_step lines i line :
  lines !! i = Some line →
  parse_from lines i =
    if is_againframe line then parse_from lines (S i)
    else if is_begin line then
      let s := back_scan lines i in
      let e := find_end (length lines) lines (S i) 1 in
      Frame s e (join_lines (slice lines s e)) :: parse_from lines e
    else if is_shorthand line then
      let s := back_scan lines i in
      Frame s (S i) (join_lines (slice lines s (S i))) :: parse_from lines (S i)
    else parse_from lines (S i).
Proof.
  intros Hl. pose proof (lookup_lt_Some _ _ _ Hl) as Hi.
  pose proof (find_end_bounds lines (S i) 1 ltac:(lia)) as He.
  unfold parse_from at 1.
  destruct (length lines - i) as [|fuel] eqn:Hfuel; [lia|].
  simpl. rewrite Hl.
  repeat case_match;
    first [apply parse_loop_enough; lia | f_equal; apply parse_loop_enough; lia].
Qed.

Lemma pre_ok_nil : pre_ok [].
Proof. by intros l. Qed.

Lemma pre_ok_app pre ls : pre_ok pre → pre_ok ls → pre_ok (pre ++ ls).
Proof.
  intros Hp Hl l. destruct ls as [|x ls] using rev_ind.
  - rewrite app_nil_r. apply Hp.
  - rewrite app_assoc, last_snoc. intros [= <-]. apply Hl. by rewrite last_snoc.
Qed.

Lemma pre_ok_snoc pre l : is_comment l = false → pre_ok (pre ++ [l]).
Proof. intros H l'. rewrite last_snoc. by intros [= <-]. Qed.

Lemma comment_run_app cs ls :
  Forall (fun l => is_comment l = true) cs →
  comment_run (cs ++ ls) = length cs + comment_run ls.
Proof.
  induction 1 as [|c cs Hc _ IH]; [done|]. simpl. by rewrite Hc, IH.
Qed.

Lemma comment_run_pre_ok pre : pre_ok pre → comment_run (reverse pre) = 0.
Proof.
  intros Hp. destruct pre as [|x pre _] using rev_ind; [done|].
  rewrite reverse_snoc. simpl. rewrite Hp; [done|]. by rewrite last_snoc.
Qed.

Lemma comment_run_above pre cs :
  pre_ok pre → Forall (fun l => is_comment l = true) cs →
  comment_run (reverse (pre ++ cs)) = length cs.
Proof.
  intros Hp Hc. rewrite reverse_app, comment_run_app.
  - rewrite comment_run_pre_ok, length_reverse by done. lia.
  - by apply Forall_reverse.
Qed.

Lemma depth_step_drop l d :
  (0 < d)%Z → (depth_step l d <= 0)%Z → is_end l = true.
Proof.
  unfold depth_step. intros Hd. destruct (is_begin l); [lia|].
  destruct (is_end l); [done|lia].
Qed.

Lemma closes_last body d :
  (0 < d)%Z → closes body d = true →
  ∃ l, last body = Some l ∧ is_end l = true.
Proof.
  revert d. induction body as [|l r IH]; intros d Hd; [done|].
  simpl. destruct (Z.ltb_spec 0 (depth_step l d)) as [Hpos|Hle].
  - intros Hc. destruct (IH _ Hpos Hc) as (l' & Hl' & He).
    exists l'. split; [|done]. destruct r; [done|]. done.
  - intros ->%bool_decide_eq_true. exists l. split; [done|].
    by apply (depth_step_drop l d).
Qed.

Lemma scan_closes body rest d :
  (0 < d)%Z → closes body d = true → scan (body ++ rest) d = length body.
Proof.
  revert d. induction body as [|l r IH]; intros d Hd; [done|].
  simpl. destruct (Z.ltb_spec 0 d); [|lia].
  destruct (Z.ltb_spec 0 (depth_step l d)) as [Hpos|Hle].
  - intros Hc. by rewrite IH.
  - intros ->%bool_decide_eq_true. simpl. destruct rest as [|x rest]; [done|].
    simpl. by destruct (Z.ltb_spec 0 (depth_step l d)); [lia|].
Qed.

Lemma scan_stays_open body d :
  (0 < d)%Z → stays_open body d = true → scan body d = length body.
Proof.
  revert d. induction body as [|l r IH]; intros d Hd; [done|].
  simpl. destruct (Z.ltb_spec 0 d); [|lia].
  intros [Hpos%Z.ltb_lt Ho]%andb_true_iff. by rewrite IH.
Qed.

Lemma scan_cases suf d :
  (0 < d)%Z →
  closes (take (scan suf d) suf) d = true ∨ stays_open suf d = true.
Proof.
  revert d. induction suf as [|l r IH]; intros d Hd; [by right|].
  simpl. destruct (Z.ltb_spec 0 d); [|lia]. simpl.
  destruct (Z.ltb_spec 0 (depth_step l d)) as [Hpos|Hle].
  - destruct (IH _ Hpos) as [Hc|Ho]; [by left|by right].
  - left. apply bool_decide_eq_true. destruct r as [|x r]; [done|].
    simpl. by destruct (Z.ltb_spec 0 (depth_step l d)); [lia|].
Qed.

(** ** The main loop on a document cut in two *)

Lemma parse_from_nil pre : parse_from (pre ++ []) (length pre) = [].
Proof. apply parse_from_end. rewrite app_nil_r. lia. Qed.

Lemma parse_from_pass pre l suf :
  opens l = false →
  parse_from (pre ++ l :: suf) (length pre)
  = parse_from ((pre ++ [l]) ++ suf) (length (pre ++ [l])).
Proof.
  intros [Hb Hs]%orb_false_iff.
  rewrite (parse_from_step _ _ l) by apply list_lookup_middle, eq_refl.
  rewrite Hb, Hs, <- app_assoc, length_app. simpl.
  replace (length pre + 1) with (S (length pre)) by lia.
  by destruct (is_againframe l).
Qed.

Lemma parse_from_skip pre g suf :
  Forall (fun l => opens l = false) g →
  parse_from (pre ++ g ++ suf) (length pre)
  = parse_from ((pre ++ g) ++ suf) (length (pre ++ g)).
Proof.
  intros Hg. revert pre. induction Hg as [|l g Hl _ IH]; intros pre.
  - by rewrite app_nil_r.
  - simpl app. rewrite parse_from_pass by done.
    rewrite IH. by rewrite <- (app_assoc pre [l] g).
Qed.

Lemma slice_middle (pre mid suf : list str) :
  slice (pre ++ mid ++ suf) (length pre) (length pre + length mid) = mid.
Proof.
  unfold slice. rewrite app_assoc.
  rewrite take_app_length' by (rewrite length_app; lia).
  by rewrite drop_app_length.
Qed.

Lemma parse_from_begin pre cs l suf :
  pre_ok pre → Forall (fun c => is_comment c = true) cs →
  is_begin l = true →
  let k := scan suf 1 in
  parse_from ((pre ++ cs) ++ l :: suf) (length (pre ++ cs))
  = Frame (length pre) (length pre + length (cs ++ l :: take k suf))
      (join_lines (cs ++ l :: take k suf))
    :: parse_from ((pre ++ cs ++ l :: take k suf) ++ drop k suf)
         (length (pre ++ cs ++ l :: take k suf)).
Proof.
  intros Hp Hc Hb k.
  pose proof (scan_le suf 1) as Hk. fold k in Hk.
  rewrite (parse_from_step _ _ l) by apply list_lookup_middle, eq_refl.
  rewrite (begin_not_againframe l Hb), Hb. cbv zeta.
  rewrite back_scan_spec by (rewrite !length_app; simpl; lia).
  rewrite take_app_length, comment_run_above by done.
  rewrite find_end_spec by lia.
  replace (S (length (pre ++ cs))) with (length ((pre ++ cs) ++ [l]))
    by (rewrite !length_app; simpl; lia).
  assert ((pre ++ cs) ++ l :: suf = ((pre ++ cs) ++ [l]) ++ suf) as ->
    by (by rewrite <- !app_assoc).
  rewrite drop_app_length. fold k.
  assert (length (pre ++ cs) - length cs = length pre) as -> by
    (rewrite length_app; lia).
  assert (length ((pre ++ cs) ++ [l]) + k
          = length pre + length (cs ++ l :: take k suf)) as ->.
  { rewrite !length_app. simpl. rewrite length_take. lia. }
  assert (((pre ++ cs) ++ [l]) ++ suf
          = pre ++ (cs ++ l :: take k suf) ++ drop k suf) as ->.
  { rewrite <- (take_drop k suf) at 1. by rewrite <- !app_assoc. }
  rewrite slice_middle. f_equal.
  rewrite !app_assoc. f_equal. rewrite !length_app. simpl. lia.
Qed.

Lemma parse_from_shorthand pre cs l suf :
  pre_ok pre → Forall (fun c => is_comment c = true) cs →
  is_shorthand l = true →
  parse_from ((pre ++ cs) ++ l :: suf) (length (pre ++ cs))
  = Frame (length pre) (length pre + length (cs ++ [l]))
      (join_lines (cs ++ [l]))
    :: parse_from ((pre ++ cs ++ [l]) ++ suf) (length (pre ++ cs ++ [l])).
Proof.
  intros Hp Hc Hs.
  rewrite (parse_from_step _ _ l) by apply list_lookup_middle, eq_refl.
  rewrite (shorthand_not_againframe l Hs), (shorthand_not_begin l Hs), Hs.
  cbv zeta.
  rewrite back_scan_spec by (rewrite !length_app; simpl; lia).
  rewrite take_app_length, comment_run_above by done.
  replace (S (length (pre ++ cs))) with (length ((pre ++ cs) ++ [l]))
    by (rewrite !length_app; simpl; lia).
  assert (length (pre ++ cs) - length cs = length pre) as -> by
    (rewrite length_app; lia).
  assert (length ((pre ++ cs) ++ [l]) = length pre + length (cs ++ [l])) as ->.
  { rewrite !length_app. simpl. lia. }
  assert ((pre ++ cs) ++ l :: suf = pre ++ (cs ++ [l]) ++ suf) as ->.
  { by rewrite <- !app_assoc. }
  rewrite slice_middle. f_equal.
  rewrite !app_assoc. f_equal. rewrite !length_app. simpl. lia.
Qed.

(** ** The index of a layout *)

Lemma pre_ok_block pre b :
  wf_block b → closed b → pre_ok (pre ++ segment b).
Proof.
  intros Hwf Hcl. unfold segment, block_lines.
  destruct (is_begin (opener b)) eqn:Hb.
  - destruct (closes_last (body b) 1) as (l & Hl & He); [lia|by apply Hcl|].
    destruct (body b) as [|x r _] using rev_ind; [done|].
    rewrite last_snoc in Hl. injection Hl as ->.
    rewrite (cons_middle (opener b)), !app_assoc.
    apply pre_ok_snoc. by apply end_not_comment.
  - rewrite (wf_shorthand b Hwf Hb), !app_assoc.
    apply pre_ok_snoc. apply shorthand_not_comment.
    pose proof (wf_opener b Hwf) as Ho. unfold opens in Ho.
    by rewrite Hb in Ho.
Qed.

Theorem parse_from_layout pre bs tail :
  pre_ok pre → wf_layout bs tail →
  parse_from (pre ++ render bs tail) (length pre) = spans (length pre) bs.
Proof.
  revert pre. induction bs as [|b rest IH]; intros pre Hp Hwf.
  - simpl in *. rewrite <- (app_nil_r tail), parse_from_skip by done.
    apply parse_from_nil.
  - destruct Hwf as [Hb Hrest]. simpl render. unfold segment at 1, block_lines.
    rewrite <- !app_assoc.
    rewrite parse_from_skip by apply Hb.
    rewrite parse_from_skip by
      (eapply Forall_impl; [apply Hb|]; apply comment_not_opens).
    assert (pre_ok (pre ++ gap b)) as Hpg.
    { apply pre_ok_app; [done|apply Hb]. }
    pose proof (wf_opener b Hb) as Hop. unfold opens in Hop.
    assert (∀ bd, (pre ++ gap b) ++ comments b ++ opener b :: bd
                  = pre ++ gap b ++ comments b ++ opener b :: bd) as Hassoc.
    { intros bd. by rewrite <- !app_assoc. }
    assert (length (pre ++ segment b)
            = length pre + length (gap b) + length (block_lines b)) as Hlen.
    { unfold segment. rewrite !length_app. lia. }
    simpl spans.
    destruct (is_begin (opener b)) eqn:Hbegin.
    + simpl app. rewrite parse_from_begin by (done || apply Hb).
      destruct Hrest as [[Hcl Hwf]|[[_ Hst] [-> ->]]].
      * rewrite scan_closes by (lia || by apply Hcl).
        rewrite take_app_length, drop_app_length.
        f_equal; [by rewrite length_app|].
        rewrite Hassoc. fold (block_lines b). fold (segment b).
        rewrite IH; [|by apply (pre_ok_block pre b)|done].
        by rewrite Hlen.
      * simpl render. rewrite app_nil_r.
        rewrite scan_stays_open by (lia || done).
        rewrite firstn_all, drop_all.
        f_equal; [by rewrite length_app|].
        apply parse_from_nil.
    + simpl in Hop. unfold block_lines in *.
      rewrite (wf_shorthand b Hb Hbegin) in *. simpl app.
      rewrite parse_from_shorthand by (done || apply Hb).
      f_equal; [by rewrite length_app|].
      destruct Hrest as [[Hcl Hwf]|[[Hcontra _] _]]; [|congruence].
      rewrite Hassoc.
      rewrite <- Hlen, <- IH; [|by apply (pre_ok_block pre b)|done].
      unfold segment, block_lines. by rewrite (wf_shorthand b Hb Hbegin).
Qed.

Corollary parse_lines_layout bs tail :
  wf_layout bs tail → parse_lines (render bs tail) = spans 0 bs.
Proof.
  intros Hwf. rewrite parse_lines_from.
  apply (parse_from_layout [] bs tail pre_ok_nil Hwf).
Qed.

(** ** Every document has a layout *)

Lemma split_at_opener (ls : list str) :
  Forall (fun l => opens l = false) ls ∨
  ∃ g op rest, ls = g ++ op :: rest
               ∧ Forall (fun l => opens l = false) g ∧ opens op = true.
Proof.
  induction ls as [|l ls IH]; [by left|].
  destruct (opens l) eqn:Hl.
  - right. exists [], l, ls. by repeat split.
  - destruct IH as [Hall|(g & op & rest & -> & Hg & Hop)].
    + left. by constructor.
    + right. exists (l :: g), op, rest. repeat split; [|done]. by constructor.
Qed.

Lemma split_comment_suffix (g : list str) :
  ∃ g' cs, g = g' ++ cs ∧ pre_ok g'
           ∧ Forall (fun l => is_comment l = true) cs.
Proof.
  induction g as [|x g IH] using rev_ind.
  - exists [], []. repeat split; [apply pre_ok_nil|done].
  - destruct (is_comment x) eqn:Hx.
    + destruct IH as (g' & cs & -> & Hok & Hcs).
      exists g', (cs ++ [x]). rewrite app_assoc. repeat split; [done|].
      apply Forall_app. split; [done|]. by constructor.
    + exists (g ++ [x]), []. rewrite app_nil_r. repeat split; [|done].
      by apply pre_ok_snoc.
Qed.

Theorem layout_exists (lines : list str) :
  ∃ bs tail, lines = render bs tail ∧ wf_layout bs tail.
Proof.
  remember (length lines) as n eqn:Hn.
  revert lines Hn. induction n as [n IH] using lt_wf_ind. intros lines ->.
  destruct (split_at_opener lines) as [Hall|(g & op & rest & -> & Hg & Hop)].
  { by exists [], lines. }
  destruct (split_comment_suffix g) as (g' & cs & -> & Hok & Hcs).
  apply Forall_app in Hg as [Hg' _].
  destruct (is_begin op) eqn:Hbegin.
  - set (k := scan rest 1).
    destruct (scan_cases rest 1 ltac:(lia)) as [Hc|Ho]; [fold k in Hc|].
    + destruct (IH (length (drop k rest))
                  ltac:(rewrite !length_app, length_drop; simpl; lia)
                  (drop k rest) eq_refl) as (bs & tail & Hr & Hwf).
      exists (Block g' cs op (take k rest) :: bs), tail. split.
      * simpl. unfold segment, block_lines. simpl. rewrite <- Hr.
        rewrite <- !app_assoc. simpl. by rewrite take_drop.
      * split; [constructor; simpl; (done || congruence)|]. left. split; [|done]. by intros _.
    + exists [Block g' cs op rest], []. split.
      * simpl. unfold segment, block_lines. simpl.
        by rewrite app_nil_r, <- !app_assoc.
      * split; [constructor; simpl; (done || congruence)|]. right. by repeat split.
  - destruct (IH (length rest) ltac:(rewrite !length_app; simpl; lia)
                rest eq_refl) as (bs & tail & Hr & Hwf).
    exists (Block g' cs op [] :: bs), tail. split.
    + simpl. unfold segment, block_lines. simpl. rewrite <- Hr.
      by rewrite <- !app_assoc.
    + split; [constructor; simpl; (done || congruence)|]. left. split; [|done].
      unfold closed. simpl. congruence.
Qed.

(** The frame index of any text is the list of spans of a layout of it. *)
Theorem parse_frames_layout (content : str) :
  ∃ bs tail, split_lines content = render bs tail ∧ wf_layout bs tail
             ∧ parse_frames content = spans 0 bs.
Proof.
  destruct (layout_exists (split_lines content)) as (bs & tail & Hr & Hwf).
  exists bs, tail. repeat split; [done..|].
  unfold parse_frames. rewrite Hr. by apply parse_lines_layout.
Qed.

(** ** Reading an index entry off a layout *)

Lemma block_lines_nonempty b : block_lines b ≠ [].
Proof. unfold block_lines. by destruct (comments b). Qed.

Lemma spans_bounds off bs k f :
  spans off bs !! k = Some f → off ≤ start_idx f < end_idx f.
Proof.
  revert off k. induction bs as [|b rest IH]; intros off k; [done|].
  pose proof (block_lines_nonempty b) as Hne.
  assert (0 < length (block_lines b)) by (destruct (block_lines b); simpl; [done|lia]).
  destruct k as [|k]; simpl.
  - intros [= <-]. simpl. lia.
  - intros Hk. apply IH in Hk. lia.
Qed.

Lemma spans_sorted off bs k k' f f' :
  k < k' → spans off bs !! k = Some f → spans off bs !! k' = Some f' →
  end_idx f ≤ start_idx f'.
Proof.
  revert off k k'. induction bs as [|b rest IH]; intros off k k' Hlt; [done|].
  destruct k' as [|k']; [lia|]. destruct k as [|k]; simpl.
  - intros [= <-] Hk'. apply spans_bounds in Hk'. simpl. lia.
  - apply IH. lia.
Qed.

Lemma length_spans off bs : length (spans off bs) = length bs.
Proof. revert off. induction bs as [|b rest IH]; intros off; simpl; [done|]. by rewrite IH. Qed.

(** Entry [k] of the index of a layout is block [k], found in the document
    between [X] and [Y]. *)
Lemma spans_lookup pre bs tail k f :
  pre_ok pre → wf_layout bs tail →
  spans (length pre) bs !! k = Some f →
  ∃ b X Y,
    bs !! k = Some b ∧ wf_block b
    ∧ pre ++ render bs tail = X ++ block_lines b ++ Y
    ∧ pre_ok X
    ∧ start_idx f = length X
    ∧ end_idx f = length X + length (block_lines b)
    ∧ frame_text f = join_lines (block_lines b)
    ∧ (closed b ∨ unterminated b ∧ Y = []).
Proof.
  revert pre k f. induction bs as [|b rest IH]; intros pre k f Hp Hwf; [done|].
  destruct Hwf as [Hb Hrest]. destruct k as [|k]; simpl.
  - intros [= <-]. exists b, (pre ++ gap b), (render rest tail). simpl.
    split_and!; try done.
    + unfold segment. by rewrite <- !app_assoc.
    + apply pre_ok_app; [done|apply Hb].
    + by rewrite length_app.
    + by rewrite length_app.
    + destruct Hrest as [[Hcl _]|[Hun [-> ->]]]; [by left|by right].
  - intros Hk.
    destruct Hrest as [[Hcl Hwf]|[_ [-> _]]]; [|done].
    assert (length pre + length (gap b) + length (block_lines b)
            = length (pre ++ segment b)) as Hlen.
    { unfold segment. rewrite !length_app. lia. }
    rewrite Hlen in Hk.
    destruct (IH (pre ++ segment b) k f (pre_ok_block pre b Hb Hcl) Hwf Hk)
      as (b' & X & Y & H1 & H2 & H3 & H4).
    exists b', X, Y. split; [done|]. split; [done|]. split; [|done].
    by rewrite <- H3, <- app_assoc.
Qed.

Lemma opener_not_comment b : wf_block b → is_comment (opener b) = false.
Proof.
  intros Hb. pose proof (wf_opener b Hb) as Ho. unfold opens in Ho.
  apply orb_true_iff in Ho as [Ho|Ho].
  - by apply begin_not_comment.
  - by apply shorthand_not_comment.
Qed.

Lemma opener_idx_layout X b Y f :
  wf_block b → start_idx f = length X →
  opener_idx (X ++ block_lines b ++ Y) f = length X + length (comments b).
Proof.
  intros Hb Hs. unfold opener_idx. rewrite Hs, drop_app_length.
  unfold block_lines. rewrite <- app_assoc, comment_run_app by apply Hb.
  simpl. rewrite (opener_not_comment b Hb). lia.
Qed.

(** Everything known about entry [k] of the frame index of a text. *)
Lemma parse_frames_entry content k f :
  parse_frames content !! k = Some f →
  ∃ b X Y,
    wf_block b
    ∧ split_lines content = X ++ block_lines b ++ Y
    ∧ pre_ok X
    ∧ start_idx f = length X
    ∧ end_idx f = length X + length (block_lines b)
    ∧ frame_text f = join_lines (block_lines b)
    ∧ (closed b ∨ unterminated b ∧ Y = []).
Proof.
  destruct (parse_frames_layout content) as (bs & tail & Hr & Hwf & ->).
  intros Hk.
  destruct (spans_lookup [] bs tail k f pre_ok_nil Hwf Hk)
    as (b & X & Y & _ & H2 & H3 & H4).
  exists b, X, Y. split; [done|]. split; [|done]. by rewrite Hr.
Qed.

(** The line that opens a frame lies inside its span. *)
Lemma opener_idx_bounds content k f :
  parse_frames content !! k = Some f →
  start_idx f ≤ opener_idx (split_lines content) f < end_idx f.
Proof.
  intros Hk.
  destruct (parse_frames_entry content k f Hk)
    as (bl & X & Y & Hwf & Hlines & _ & Hs & He & _).
  rewrite Hlines, (opener_idx_layout X bl Y f Hwf Hs), Hs, He.
  unfold block_lines. rewrite length_app. simpl. lia.
Qed.

Lemma parse_frames_disjoint content k k' f f' :
  k < k' → parse_frames content !! k = Some f →
  parse_frames content !! k' = Some f' →
  end_idx f ≤ start_idx f'.
Proof.
  destruct (parse_frames_layout content) as (bs & tail & _ & _ & ->).
  apply spans_sorted.
Qed.

(** A line of white space only, the empty line included, is no comment. *)
Lemma blank_not_comment l :
  Forall (fun c => is_space c = true) l → is_comment l = false.
Proof.
  unfold is_comment, re_match. induction 1 as [|c l Hc _ IH]; [done|].
  simpl skip_space. by rewrite Hc.
Qed.

(** ** The frame index: comment lines *)

(** C7. In the frame index of any text, for the frame of either form
    (opened by a begin line, or by a shorthand line and then one line
    long below its comments), with [b] the line that opens it:
    the lines of the span above [b] are comment lines; a run of comment
    lines that reaches down to [b] lies inside the span, so it is part of
    the frame text that is deleted or moved; and every line above a line
    that is not a comment, such as a blank line, lies outside the span. *)
Theorem comment_lines_absorbed content k f :
  parse_frames content !! k = Some f →
  let lines := split_lines content in
  let b := opener_idx lines f in
  (∃ op, lines !! b = Some op
         ∧ (is_begin op = true ∨ is_shorthand op = true ∧ end_idx f = S b))
  ∧ start_idx f ≤ b < end_idx f
  ∧ (∀ i, start_idx f ≤ i < b → ∃ c, lines !! i = Some c ∧ is_comment c = true)
  ∧ (∀ j, j ≤ b →
       (∀ i, j ≤ i < b → ∃ c, lines !! i = Some c ∧ is_comment c = true) →
       start_idx f ≤ j)
  ∧ (∀ j i c, j < i → i < b → lines !! i = Some c → is_comment c = false →
       j < start_idx f)
  ∧ frame_text f = join_lines (slice lines (start_idx f) (end_idx f)).
Proof.
  intros Hk lines b.
  destruct (parse_frames_entry content k f Hk)
    as (bl & X & Y & Hwf & Hlines & HX & Hs & He & Ht & _).
  subst lines b. rewrite Hlines, (opener_idx_layout X bl Y f Hwf Hs), Hs, He.
  unfold block_lines in *. set (cs := comments bl) in *.
  assert (∀ i, length X ≤ i < length X + length cs →
            ∃ c, (X ++ (cs ++ opener bl :: body bl) ++ Y) !! i = Some c
                 ∧ is_comment c = true) as Hcomments.
  { intros i Hi.
    destruct (lookup_lt_is_Some_2 cs (i - length X)) as [c Hc]; [lia|].
    exists c. split.
    - rewrite lookup_app_r by lia. rewrite <- !app_assoc.
      by rewrite lookup_app_l by lia.
    - by apply (Forall_lookup_1 _ _ _ _ (wf_comments bl Hwf) Hc). }
  split_and!.
  - exists (opener bl). split.
    + rewrite lookup_app_r by lia. rewrite <- !app_assoc.
      rewrite lookup_app_r by lia.
      by replace (length X + length cs - length X - length cs) with 0 by lia.
    + pose proof (wf_opener bl Hwf) as Hop. unfold opens in Hop.
      destruct (is_begin (opener bl)) eqn:Hb; [by left|right].
      split; [done|]. rewrite (wf_shorthand bl Hwf Hb), length_app. simpl. lia.
  - lia.
  - rewrite length_app. simpl. lia.
  - done.
  - intros j Hj Hrun. destruct (decide (length X ≤ j)) as [|Hlt]; [done|].
    exfalso. destruct (Hrun (pred (length X)) ltac:(lia)) as (c & Hc & Hcom).
    rewrite lookup_app_l in Hc by lia. rewrite <- last_lookup in Hc.
    rewrite (HX c Hc) in Hcom. done.
  - intros j i c Hji Hib Hc Hnc.
    destruct (decide (length X ≤ i)) as [Hge|]; [|lia].
    destruct (Hcomments i ltac:(lia)) as (c' & Hc' & Hcom). congruence.
  - rewrite Ht. by rewrite slice_middle.
Qed.

Lemma comment_lines_absorbed_witness :
  let f := Frame 2 6 (lit "% kept
  % kept too
\begin{frame}{A}
\end{frame}") in
  parse_frames comment_demo !! 0 = Some f
  ∧ opener_idx (split_lines comment_demo) f = 4
  ∧ (∀ j i c, j < i → i < 4 → split_lines comment_demo !! i = Some c →
       is_comment c = false → j < start_idx f).
Proof.
  intros f.
  assert (parse_frames comment_demo !! 0 = Some f) as H by (vm_compute; reflexivity).
  split; [exact H|]. split; [vm_compute; reflexivity|].
  exact (proj1 (proj2 (proj2 (proj2 (proj2
           (comment_lines_absorbed comment_demo 0 f H)))))).
Defined.

(** ** The frame index: nested frames *)

Lemma closes_depth body d :
  (0 < d)%Z → closes body d = true →
  (∀ j, j < length body → (0 < depth_after (take j body) d)%Z)
  ∧ depth_after body d = 0%Z.
Proof.
  revert d. induction body as [|l r IH]; intros d Hd; [done|].
  simpl closes. destruct (Z.ltb_spec 0 (depth_step l d)) as [Hpos|Hle].
  - intros Hc. destruct (IH _ Hpos Hc) as [Hpre Hall]. split; [|done].
    intros [|j] Hj; [done|]. simpl. apply Hpre. simpl in Hj. lia.
  - intros ->%bool_decide_eq_true. split.
    + intros [|j] Hj; [done|]. simpl in Hj. lia.
    + simpl. unfold depth_step in *.
      destruct (is_begin l); [lia|]. destruct (is_end l); lia.
Qed.

Lemma stays_open_depth body d :
  (0 < d)%Z → stays_open body d = true →
  ∀ j, (0 < depth_after (take j body) d)%Z.
Proof.
  revert d. induction body as [|l r IH]; intros d Hd.
  - intros _ j. by rewrite take_nil.
  - simpl. intros [Hpos%Z.ltb_lt Ho]%andb_true_iff [|j]; [done|].
    simpl. by apply IH.
Qed.

(** C8. Take a frame of the index that is opened by a begin line, at line
    [b], and a nested begin line [n] inside its span.  Then the span is the
    only entry of the index that covers line [n], no entry of the index is
    opened at line [n], the depth counter is positive before every line of
    the span below [b], and the span ends where the counter has returned
    to zero, or at the end of the text when it never does. *)
Theorem nested_frame_one_span content k f n inner :
  let lines := split_lines content in
  let b := opener_idx lines f in
  parse_frames content !! k = Some f →
  (∃ op, lines !! b = Some op ∧ is_begin op = true) →
  b < n < end_idx f → lines !! n = Some inner → is_begin inner = true →
  (∀ k' f', parse_frames content !! k' = Some f' →
     start_idx f' ≤ n < end_idx f' → k' = k)
  ∧ (∀ k' f', parse_frames content !! k' = Some f' → opener_idx lines f' ≠ n)
  ∧ (∀ m, b < m < end_idx f → (0 < depth_after (slice lines (S b) m) 1)%Z)
  ∧ (depth_after (slice lines (S b) (end_idx f)) 1 = 0%Z
     ∨ end_idx f = length lines).
Proof.
  intros lines b Hk (op & Hop & Hbegin) Hn Hinner Hnested.
  assert (∀ k' f', parse_frames content !! k' = Some f' →
            start_idx f' ≤ n < end_idx f' → k' = k) as Hone.
  { intros k' f' Hk' Hcover.
    pose proof (opener_idx_bounds content k f Hk) as Hb.
    fold lines in Hb. fold b in Hb.
    destruct (lt_eq_lt_dec k' k) as [[Hlt|Heq]|Hgt]; [|done|].
    - pose proof (parse_frames_disjoint content k' k f' f Hlt Hk' Hk). lia.
    - pose proof (parse_frames_disjoint content k k' f f' Hgt Hk Hk'). lia. }
  split; [exact Hone|]. split.
  { intros k' f' Hk' Heq.
    pose proof (opener_idx_bounds content k' f' Hk') as Hb'.
    fold lines in Hb'. rewrite Heq in Hb'.
    assert (k' = k) as -> by (apply (Hone k' f'); [done|lia]).
    assert (f' = f) as -> by congruence. subst b. lia. }
  destruct (parse_frames_entry content k f Hk)
    as (bl & X & Y & Hwf & Hlines & HX & Hs & He & Ht & Hend).
  subst lines b. rewrite Hlines in *.
  rewrite (opener_idx_layout X bl Y f Hwf Hs) in *. rewrite He in *.
  unfold block_lines in *. set (cs := comments bl) in *.
  assert ((X ++ (cs ++ opener bl :: body bl) ++ Y) !! (length X + length cs)
          = Some (opener bl)) as Hopener.
  { rewrite lookup_app_r by lia. rewrite <- !app_assoc.
    rewrite lookup_app_r by lia.
    by replace (length X + length cs - length X - length cs) with 0 by lia. }
  assert (op = opener bl) as -> by congruence.
  assert (X ++ (cs ++ opener bl :: body bl) ++ Y
          = (X ++ cs ++ [opener bl]) ++ body bl ++ Y) as Hshape.
  { by rewrite <- !app_assoc. }
  assert (S (length X + length cs) = length (X ++ cs ++ [opener bl])) as Hsb.
  { rewrite !length_app. simpl. lia. }
  assert (∀ m, slice ((X ++ cs ++ [opener bl]) ++ body bl ++ Y)
                 (length (X ++ cs ++ [opener bl]))
                 (length (X ++ cs ++ [opener bl]) + m)
               = take m (body bl ++ Y)) as Hslice.
  { intros m. unfold slice. rewrite take_app_add', drop_app_length; done. }
  rewrite Hshape, Hsb. rewrite length_app in Hn. simpl in Hn.
  split.
  - intros m Hm. rewrite length_app in Hm. simpl in Hm.
    replace m with (length (X ++ cs ++ [opener bl])
                    + (m - length (X ++ cs ++ [opener bl]))) by lia.
    rewrite Hslice.
    set (j := m - length (X ++ cs ++ [opener bl])).
    assert (j < length (body bl)) as Hj by (subst j; lia).
    rewrite take_app_le by lia.
    destruct Hend as [Hcl|[[_ Hst] _]].
    + by apply (closes_depth (body bl) 1 ltac:(lia) (Hcl Hbegin)).
    + by apply (stays_open_depth (body bl) 1 ltac:(lia) Hst).
  - replace (length X + length (cs ++ opener bl :: body bl))
      with (length (X ++ cs ++ [opener bl]) + length (body bl))
      by (rewrite !length_app; simpl; lia).
    rewrite Hslice, take_app_length.
    destruct Hend as [Hcl|[_ ->]].
    + left. by apply (closes_depth (body bl) 1 ltac:(lia) (Hcl Hbegin)).
    + right. rewrite !length_app. simpl. lia.
Qed.

Lemma nested_frame_one_span_witness :
  parse_frames nested_demo
  = [ Frame 0 4 (lit "\begin{frame}{outer}
  \begin{frame}{inner}
  \end{frame}
\end{frame}");
      Frame 4 5 (lit "\frame{next}") ]
  ∧ (∀ k' f', parse_frames nested_demo !! k' = Some f' →
       start_idx f' ≤ 1 < end_idx f' → k' = 0)
  ∧ (∀ k' f', parse_frames nested_demo !! k' = Some f' →
       opener_idx (split_lines nested_demo) f' ≠ 1).
Proof.
  split; [vm_compute; reflexivity|].
  pose proof (nested_frame_one_span nested_demo 0
                (Frame 0 4 (lit "\begin{frame}{outer}
  \begin{frame}{inner}
  \end{frame}
\end{frame}")) 1 (lit "  \begin{frame}{inner}")) as H.
  cbv zeta in H.
  destruct H as (H1 & H2 & _).
  - vm_compute; reflexivity.
  - exists (lit "\begin{frame}{outer}"). split; vm_compute; reflexivity.
  - vm_compute. split; lia.
  - vm_compute; reflexivity.
  - vm_compute; reflexivity.
  - split; assumption.
Defined.

(** ** Validated positions *)

Lemma first_out_of_range_None ps n :
  first_out_of_range ps n = None ↔ Forall (in_range n) ps.
Proof.
  unfold in_range. induction ps as [|p ps IH]; simpl; [done|].
  destruct (Z.ltb_spec p 1), (Z.ltb_spec (Z.of_nat n) p); simpl;
    rewrite ?Forall_cons; try (split; [done|intros [? _]; lia]).
  rewrite IH. split; [intros ?; split; [lia|done]|by intros [_ ?]].
Qed.

Lemma first_out_of_range_Some ps n pos :
  first_out_of_range ps n = Some pos →
  pos ∈ ps ∧ ((pos < 1)%Z ∨ (Z.of_nat n < pos)%Z).
Proof.
  induction ps as [|p ps IH]; simpl; [done|].
  destruct (Z.ltb_spec p 1), (Z.ltb_spec (Z.of_nat n) p); simpl;
    try (intros [= ->]; split; [by left|lia]).
  intros [Hin Hr]%IH. split; [by right|done].
Qed.

Lemma py_index_in_range {A} (l : list A) (pos : Z) :
  in_range (length l) pos →
  ∃ x, py_index l (pos - 1) = Some x ∧ l !! Z.to_nat (pos - 1) = Some x.
Proof.
  unfold in_range, py_index. intros Hp.
  destruct (Z.ltb_spec (pos - 1) 0); [lia|].
  destruct (lookup_lt_is_Some_2 l (Z.to_nat (pos - 1))) as [x Hx]; [lia|].
  by exists x.
Qed.

Lemma frame_texts_in_range frames ps :
  Forall (in_range (length frames)) ps → is_Some (frame_texts frames ps).
Proof.
  unfold frame_texts. intros Hall. apply mapM_is_Some.
  eapply Forall_impl; [exact Hall|]. intros pos Hpos. simpl.
  destruct (py_index_in_range frames pos Hpos) as (x & -> & _). by eexists.
Qed.

Lemma remove_spans_in_range frames ps lines :
  Forall (in_range (length frames)) ps → is_Some (remove_spans frames ps lines).
Proof.
  intros Hall. revert lines. induction Hall as [|p ps Hp _ IH]; intros lines.
  - by eexists.
  - simpl. destruct (py_index_in_range frames p Hp) as (x & -> & _).
    simpl. apply IH.
Qed.

Lemma py_index_head {A} (l : list A) : py_index l 0 = head l.
Proof. unfold py_index. simpl. by destruct l. Qed.

Lemma py_index_last {A} (l : list A) : py_index l (-1) = last l.
Proof.
  unfold py_index. simpl. destruct l as [|x l _] using rev_ind; [done|].
  rewrite last_snoc, length_app. simpl.
  destruct (Z.ltb_spec (-1 + Z.of_nat (length l + 1)) 0); [lia|].
  replace (Z.to_nat (-1 + Z.of_nat (length l + 1))) with (length l) by lia.
  by rewrite list_lookup_middle.
Qed.

Lemma from_range_str_is_Some ps : ps ≠ [] → is_Some (from_range_str ps).
Proof.
  intros Hne. unfold from_range_str. rewrite py_index_head, py_index_last.
  destruct ps as [|p ps]; [done|]. simpl head.
  destruct (last_is_Some (p :: ps)) as [_ [x Hx]]; [done|]. rewrite Hx.
  destruct (1 <? length (p :: ps)); by eexists.
Qed.

(** ** Running the commands *)

Lemma cross_file_target_None input output :
  cross_file_target input output = None →
  default input output = input.
Proof.
  unfold cross_file_target. destruct output as [out|]; [|done].
  case_bool_decide as H; [done|]. intros _. simpl.
  by destruct (decide (out = input)).
Qed.

(** C6. A same-file move of one frame to the position it already has
    changes no file, writes nothing and ends normally after printing that
    there is nothing to do. *)
Theorem move_to_own_position_noop w input content p output copy_mode :
  files w !! input = Some content →
  cross_file_target input output = None →
  (1 <= p <= Z.of_nat (length (parse_frames content)))%Z →
  move_frames input [p] p output copy_mode w
  = (Done (), World (files w) (written w) (printed w ++ [MsgNothingToDo])).
Proof.
  intros Hfile Hsame Hp. unfold move_frames. run_io.
  rewrite Hfile, Hsame.
  case_bool_decide as Hnil.
  { rewrite Hnil in Hp. simpl in Hp. lia. }
  assert (first_out_of_range [p] (length (parse_frames content)) = None) as ->.
  { apply first_out_of_range_None. by constructor. }
  destruct (frame_texts_in_range (parse_frames content) [p]) as [texts ->].
  { by constructor. }
  destruct (from_range_str_is_Some [p]) as [label ->]; [done|].
  destruct (Z.ltb_spec p 1); [lia|].
  destruct (Z.ltb_spec (Z.of_nat (length (parse_frames content))) p); [lia|].
  simpl orb. cbv iota.
  rewrite bool_decide_eq_true_2; [done|].
  split; [done|]. by rewrite py_index_head.
Qed.

Lemma move_to_own_position_noop_witness :
  let w := world_of [("a.tex", three_frames)] in
  move_frames "a.tex" [2%Z] 2 None false w
  = (Done (), World (files w) (written w) (printed w ++ [MsgNothingToDo])).
Proof.
  intros w.
  apply (move_to_own_position_noop w "a.tex" three_frames 2 None false).
  - vm_compute; reflexivity.
  - reflexivity.
  - assert (length (parse_frames three_frames) = 3) as ->
      by (vm_compute; reflexivity).
    lia.
Defined.

(** C3, as the program has it. A same-file move of valid positions to the
    destination one past the last frame is refused: the run ends with the
    out-of-range error for the destination, naming it and the bound
    [1-|index|], and the world is left as it was. *)
Theorem same_file_append_rejected w input content from_positions output copy_mode :
  let n := length (parse_frames content) in
  files w !! input = Some content →
  cross_file_target input output = None →
  from_positions ≠ [] →
  Forall (fun pos => (1 <= pos <= Z.of_nat n)%Z) from_positions →
  move_frames input from_positions (Z.of_nat n + 1) output copy_mode w
  = (Failed (ErrToRange (Z.of_nat n + 1) n), w).
Proof.
  intros n Hfile Hsame Hne Hall. unfold move_frames. run_io.
  rewrite Hfile, Hsame. fold n.
  case_bool_decide as Hnil.
  { destruct Hall as [|pos ps Hpos _]; [done|].
    subst n. rewrite Hnil in Hpos. simpl in Hpos. lia. }
  assert (first_out_of_range from_positions n = None) as ->
    by by apply first_out_of_range_None.
  destruct (frame_texts_in_range (parse_frames content) from_positions Hall)
    as [texts ->].
  destruct (from_range_str_is_Some from_positions Hne) as [label ->].
  destruct (Z.ltb_spec (Z.of_nat n) (Z.of_nat n + 1)); [|lia].
  by rewrite orb_true_r.
Qed.

Lemma same_file_append_rejected_witness :
  let w := world_of [("a.tex", three_frames)] in
  move_frames "a.tex" [1%Z] 4 None false w = (Failed (ErrToRange 4 3), w).
Proof.
  intros w.
  apply (same_file_append_rejected w "a.tex" three_frames [1%Z] None false).
  - vm_compute; reflexivity.
  - reflexivity.
  - done.
  - constructor; [|constructor]. vm_compute. split; discriminate.
Defined.

(** C3, as stated, fails: with three frames, a same-file move of frame 1
    to position 4 is not performed as an append; it is refused and the
    file keeps its contents. *)
Lemma same_file_append_counterexample :
  let w := world_of [("a.tex", three_frames)] in
  length (parse_frames three_frames) = 3
  ∧ fst (move_frames "a.tex" [1%Z] 4 None false w) = Failed (ErrToRange 4 3)
  ∧ files (snd (move_frames "a.tex" [1%Z] 4 None false w)) !! "a.tex"
    = Some three_frames
  ∧ written (snd (move_frames "a.tex" [1%Z] 4 None false w)) = [].
Proof. vm_compute. repeat split; reflexivity. Qed.

(** C10. A cross-file copy never writes the source: whatever the outcome,
    the source file and every file other than the destination keep their
    contents, and the only write is the one of the destination, made
    exactly when the copy succeeds. *)
Theorem cross_file_copy_keeps_source w input out from_positions to_pos r w' :
  out ≠ input →
  move_frames input from_positions to_pos (Some out) true w = (r, w') →
  files w' !! input = files w !! input
  ∧ (∀ p, p ≠ out → files w' !! p = files w !! p)
  ∧ written w' = written w ++ match r with Done _ => [out] | Failed _ => [] end.
Proof.
  intros Hne. unfold move_frames, cross_file_target. run_io.
  rewrite bool_decide_eq_true_2 by done.
  repeat (case_inner; simplify_eq/=); intros [= <- <-]; simpl;
    rewrite ?app_nil_r; split_and!; try done;
    intros; by rewrite lookup_insert_ne.
Qed.

Lemma cross_file_copy_keeps_source_witness :
  let w := world_of [("a.tex", three_frames); ("b.tex", one_frame)] in
  let w' := snd (move_frames "a.tex" [2%Z] 1 (Some "b.tex") true w) in
  files w' !! "a.tex" = files w !! "a.tex"
  ∧ (∀ p, p ≠ "b.tex" → files w' !! p = files w !! p)
  ∧ written w' = written w ++ ["b.tex"].
Proof.
  intros w w'.
  apply (cross_file_copy_keeps_source w "a.tex" "b.tex" [2%Z] 1 (Done ()) w').
  - done.
  - vm_compute; reflexivity.
Defined.

(** ** Cross-file insertion *)

(** C2, as the program has it. For a destination position valid in the
    destination index of size [n], the insertion line of a cross-file
    move or copy is the start of the span at that position when it is at
    most [n], the end of the last span when it is [n + 1] and there is a
    frame, and the number of lines of the destination text, that is its
    end, when the destination has no frames. *)
Theorem cross_file_insert_offset dest_content to_pos :
  let dest_frames := parse_frames dest_content in
  let dest_lines := split_lines dest_content in
  let n := length dest_frames in
  (1 <= to_pos <= Z.of_nat n + 1)%Z →
  ((to_pos <= Z.of_nat n)%Z →
     ∃ f, dest_frames !! Z.to_nat (to_pos - 1) = Some f
          ∧ cross_insert_at dest_frames dest_lines to_pos = Some (start_idx f))
  ∧ (to_pos = (Z.of_nat n + 1)%Z → n ≠ 0 →
     ∃ f, last dest_frames = Some f
          ∧ cross_insert_at dest_frames dest_lines to_pos = Some (end_idx f))
  ∧ (n = 0 →
     cross_insert_at dest_frames dest_lines to_pos = Some (length dest_lines)).
Proof.
  intros dest_frames dest_lines n Hto. unfold cross_insert_at. fold n.
  split_and!.
  - intros Hle. destruct (Z.leb_spec to_pos (Z.of_nat n)); [|lia].
    destruct (py_index_in_range dest_frames to_pos) as (f & -> & Hf).
    { unfold in_range. fold n. lia. }
    by exists f.
  - intros -> Hn. destruct (Z.leb_spec (Z.of_nat n + 1) (Z.of_nat n)); [lia|].
    rewrite py_index_last.
    destruct dest_frames as [|f0 fs] eqn:Hfs; [done|].
    destruct (last_is_Some (f0 :: fs)) as [_ [f Hf]]; [done|].
    exists f. by rewrite Hf.
  - intros Hn. destruct (Z.leb_spec to_pos (Z.of_nat n)); [lia|].
    subst n. by destruct dest_frames.
Qed.

Lemma cross_file_insert_offset_witness :
  cross_insert_at (parse_frames three_frames) (split_lines three_frames) 2
  = Some 2.
Proof.
  destruct (cross_file_insert_offset three_frames 2) as ((f & Hf & ->) & _).
  - vm_compute. split; discriminate.
  - vm_compute. discriminate.
  - vm_compute in Hf. by injection Hf as <-.
Defined.

(** C2, as stated, fails: a destination without frames receives the
    frames after its last line, not at line 0. *)
Lemma cross_file_insert_counterexample :
  let w := world_of [("a.tex", three_frames); ("notes.tex", lit "intro")] in
  parse_frames (lit "intro") = []
  ∧ cross_insert_at (parse_frames (lit "intro")) (split_lines (lit "intro")) 1
    = Some 1
  ∧ files (snd (move_frames "a.tex" [1%Z] 1 (Some "notes.tex") true w))
      !! "notes.tex"
    = Some (lit "intro
\frame{a}").
Proof. vm_compute. repeat split; reflexivity. Qed.

(** ** Same-file moves of a range *)

(** C1 does not hold of the program: moving frames 1-2 behind frame 3
    removes the run of lines from the start of frame 1 to the end of
    frame 2 and puts back the texts of the two frames only; the line
    between them is gone from the file. *)
Lemma move_range_drops_lines_between :
  let w := world_of [("a.tex", three_frames)] in
  let w' := snd (move_frames "a.tex" [1%Z; 2%Z] 2 None false w) in
  fst (move_frames "a.tex" [1%Z; 2%Z] 2 None false w) = Done ()
  ∧ files w' !! "a.tex" = Some (lit "\frame{c}
\frame{a}
\frame{b}")
  ∧ lit "\section{Two}" ∈ split_lines three_frames
  ∧ ∀ content', files w' !! "a.tex" = Some content' →
      lit "\section{Two}" ∉ split_lines content'.
Proof.
  intros w w'.
  assert (files w' !! "a.tex" = Some (lit "\frame{c}
\frame{a}
\frame{b}")) as Hfile by (vm_compute; reflexivity).
  split_and!; [vm_compute; reflexivity|exact Hfile| |].
  - vm_compute. apply list_elem_of_lookup. by exists 1.
  - intros content'. rewrite Hfile. intros [= <-]. vm_compute.
    intros Hin. apply list_elem_of_lookup in Hin as [i Hi].
    destruct i as [|[|[|i]]]; simpl in Hi; discriminate.
Qed.

(** ** Moving one frame within a file *)

Lemma relocate_lines (P LA M T : list str) :
  let lines := P ++ LA ++ M ++ T in
  let lwm := take (length P) lines ++ drop (length P + length LA) lines in
  let at_ := (Z.of_nat (length P + length LA + length M)
              - (Z.of_nat (length P + length LA) - Z.of_nat (length P)))%Z in
  py_take at_ lwm ++ LA ++ py_drop at_ lwm = P ++ M ++ LA ++ T.
Proof.
  intros lines lwm at_.
  assert (lwm = (P ++ M) ++ T) as ->.
  { subst lwm lines. rewrite take_app_length.
    rewrite (app_assoc P LA), <- length_app, drop_app_length.
    by rewrite <- app_assoc. }
  assert (at_ = Z.of_nat (length (P ++ M))) as ->.
  { subst at_. rewrite length_app. lia. }
  unfold py_take, py_drop.
  destruct (Z.ltb_spec (Z.of_nat (length (P ++ M))) 0); [lia|].
  rewrite Nat2Z.id, take_app_length, drop_app_length.
  by rewrite <- !app_assoc.
Qed.

Lemma inplace_insert_at_first_to_third fs rc A B C D lwm :
  inplace_insert_at [1%Z] 3 fs rc [A; B; C; D] lwm = adjust fs rc (start_idx D).
Proof.
  unfold inplace_insert_at. simpl scan_insert. reflexivity.
Qed.

(** C5. When the frame index of a file is [A; B; C; D], the same-file
    move of position 1 to position 3 succeeds, writes the file once, and
    the frame index of the text written holds the four frame texts in the
    order B, C, A, D. *)
Theorem move_first_to_third w input content A B C D output copy_mode :
  files w !! input = Some content →
  cross_file_target input output = None →
  parse_frames content = [A; B; C; D] →
  ∃ content',
    move_frames input [1%Z] 3 output copy_mode w
    = (Done (),
       World (<[input := content']> (files w)) (written w ++ [input])
         (printed w ++ [MsgMoved (LabelSingle 1) 3 input]))
    ∧ frame_text <$> parse_frames content' = frame_text <$> [B; C; A; D].
Proof.
  intros Hfile Hsame Hparse.
  destruct (parse_frames_layout content) as (bs & tail & Hr & Hwf & Hspans).
  rewrite Hparse in Hspans.
  destruct bs as [|bA [|bB [|bC [|bD [|? ?]]]]]; try discriminate Hspans.
  simpl in Hspans. injection Hspans as -> -> -> ->.
  unfold move_frames. run_io.
  rewrite Hfile, Hsame, Hparse, (cross_file_target_None _ _ Hsame).
  simpl. eexists. split; [reflexivity|].
  rewrite inplace_insert_at_first_to_third. simpl start_idx.
  set (P := gap bA). set (LA := block_lines bA).
  set (M := gap bB ++ block_lines bB ++ gap bC ++ block_lines bC ++ gap bD).
  set (T := block_lines bD ++ tail).
  assert (split_lines content = P ++ LA ++ M ++ T) as Hlines.
  { rewrite Hr. subst P LA M T. simpl. unfold segment.
    by rewrite <- !app_assoc. }
  pose proof (block_lines_nonempty bA) as HLA. fold LA in HLA.
  assert (0 < length LA) as HlenA by (destruct LA; simpl; [done|lia]).
  assert (adjust (Z.of_nat (length P))
            (Z.of_nat (length P + length LA) - Z.of_nat (length P))
            (length P + length LA + length (gap bB) + length (block_lines bB)
             + length (gap bC) + length (block_lines bC) + length (gap bD))
          = (Z.of_nat (length P + length LA + length M)
             - (Z.of_nat (length P + length LA) - Z.of_nat (length P)))%Z)
    as ->.
  { unfold adjust. subst M. rewrite !length_app.
    case_match eqn:Hcmp; [lia|]. apply Z.ltb_ge in Hcmp. lia. }
  pose proof (split_lines_no_newline content) as Hnl.
  rewrite Hlines in Hnl. rewrite Hlines.
  apply Forall_app in Hnl as [HnlP Hnl].
  apply Forall_app in Hnl as [HnlA Hnl].
  apply Forall_app in Hnl as [HnlM HnlT].
  unfold join_lines at 2. rewrite join_with_single.
  fold (join_lines LA). rewrite split_join_lines by done.
  rewrite relocate_lines.
  unfold parse_frames. rewrite split_join_lines; cycle 1.
  { intros Heq. apply (f_equal length) in Heq.
    rewrite !length_app in Heq. simpl in Heq. lia. }
  { apply Forall_app; split; [done|]. apply Forall_app; split; [done|].
    by apply Forall_app. }
  set (bB' := Block (gap bA ++ gap bB) (comments bB) (opener bB) (body bB)).
  set (bA' := Block (gap bD) (comments bA) (opener bA) (body bA)).
  set (bD' := Block [] (comments bD) (opener bD) (body bD)).
  assert (P ++ M ++ LA ++ T = render [bB'; bC; bA'; bD'] tail) as ->.
  { subst P LA M T bB' bA' bD'. simpl. unfold segment, block_lines. simpl.
    by rewrite <- !app_assoc. }
  rewrite parse_lines_layout; [done|].
  destruct Hwf as (HwA & [[HcA (HwB & [[HcB (HwC & [[HcC HwD]|Hun])]|Hun])]|Hun]);
    try (by destruct Hun as (_ & ? & _)).
  destruct HwD as [HwD HstD].
  simpl. split_and!.
  - destruct HwA, HwB. constructor; simpl; try done.
    + by apply Forall_app.
    + by apply pre_ok_app.
  - left. split; [done|]. split; [done|]. left. split; [done|]. split.
    + destruct HwA, HwD. by constructor.
    + left. split; [done|]. split.
      * destruct HwD. by constructor.
      * destruct HstD as [[Hc Ht]|[Hu Ht]]; [left|right]; done.
Qed.

Lemma move_first_to_third_witness :
  let w := world_of [("a.tex", four_frames)] in
  ∃ content',
    move_frames "a.tex" [1%Z] 3 None false w
    = (Done (),
       World (<["a.tex" := content']> (files w)) (written w ++ ["a.tex"])
         (printed w ++ [MsgMoved (LabelSingle 1) 3 "a.tex"]))
    ∧ frame_text <$> parse_frames content'
      = [ lit "\frame{B}";
          lit "\begin{frame}{C}
\end{frame}";
          lit "% first
\begin{frame}{A}
\end{frame}";
          lit "\frame{D}" ].
Proof.
  intros w.
  apply (move_first_to_third w "a.tex" four_frames
           (Frame 0 3 (lit "% first
\begin{frame}{A}
\end{frame}"))
           (Frame 4 5 (lit "\frame{B}"))
           (Frame 6 8 (lit "\begin{frame}{C}
\end{frame}"))
           (Frame 8 9 (lit "\frame{D}")) None false).
  - vm_compute; reflexivity.
  - reflexivity.
  - vm_compute; reflexivity.
Defined.

(** ** parse_range *)

Lemma codes_uint_codes u : codes_uint (uint_codes u) = Some u.
Proof. induction u; simpl; [done|by rewrite IHu..]. Qed.

Lemma decimal_nonempty n : decimal n ≠ [].
Proof.
  unfold decimal. destruct n as [|p]; [done|]. simpl.
  pose proof (DecimalPos.Unsigned.to_uint_nonnil p) as Hn.
  by destruct (Pos.to_uint p).
Qed.

Lemma int_of_digits_decimal n : int_of_digits (decimal n) = Some (Z.of_N n).
Proof.
  unfold int_of_digits. pose proof (decimal_nonempty n) as Hn.
  destruct (decimal n) as [|c r] eqn:Hd; [done|]. rewrite <- Hd.
  unfold decimal. rewrite codes_uint_codes. simpl.
  by rewrite DecimalN.Unsigned.of_to.
Qed.

Lemma uint_codes_no_hyphen u : HYPHEN ∉ uint_codes u.
Proof.
  induction u; simpl; [by intros ?%elem_of_nil|..];
    intros [?|?]%elem_of_cons; done.
Qed.

Lemma decimal_no_hyphen n : HYPHEN ∉ decimal n.
Proof. apply uint_codes_no_hyphen. Qed.

Lemma length_py_range a b : length (py_range a b) = Z.to_nat (b - a).
Proof. unfold py_range. by rewrite length_map, length_seq. Qed.

Lemma py_range_lookup a b k :
  k < Z.to_nat (b - a) → py_range a b !! k = Some (a + Z.of_nat k)%Z.
Proof.
  intros Hk. unfold py_range. rewrite list_lookup_fmap.
  by rewrite lookup_seq_lt.
Qed.

Section ParseRangeFacts.

Variable py_int : str -> option Z.

(** The builtin reads a decimal numeral as the number it denotes. *)
Hypothesis py_int_decimal : ∀ n, py_int (decimal n) = Some (Z.of_N n).

Lemma parse_range_pair n m :
  parse_range py_int (decimal n ++ HYPHEN :: decimal m)
  = if (Z.of_N m <? Z.of_N n)%Z then inl (InvalidRange (Z.of_N n) (Z.of_N m))
    else inr (py_range (Z.of_N n) (Z.of_N m + 1)).
Proof.
  unfold parse_range. rewrite bool_decide_eq_true_2; cycle 1.
  { apply elem_of_app. right. by left. }
  rewrite split_on_app_sep by apply decimal_no_hyphen.
  rewrite split_on_piece by apply decimal_no_hyphen.
  by rewrite !py_int_decimal.
Qed.

(** C9. A decimal numeral alone is read as the list of its number; two
    numerals joined by a hyphen are read, when the first number is at most
    the second, as the list that counts from the first up to the second;
    when the first number is greater the result is the [ValueError] of an
    invalid range; and a token with a piece, between hyphens, that [int]
    does not read ends in a [ValueError] too, never in a list. *)
Theorem parse_range_spec :
  (∀ n, parse_range py_int (decimal n) = inr [Z.of_N n])
  ∧ (∀ n m, (n <= m)%N →
       ∃ l, parse_range py_int (decimal n ++ HYPHEN :: decimal m) = inr l
            ∧ length l = N.to_nat (m - n) + 1
            ∧ ∀ k, k < length l → l !! k = Some (Z.of_N n + Z.of_nat k)%Z)
  ∧ (∀ n m, (m < n)%N →
       parse_range py_int (decimal n ++ HYPHEN :: decimal m)
       = inl (InvalidRange (Z.of_N n) (Z.of_N m)))
  ∧ (∀ tok piece, piece ∈ split_on HYPHEN tok → py_int piece = None →
       ∃ e, parse_range py_int tok = inl e).
Proof.
  split_and!.
  - intros n. unfold parse_range.
    rewrite bool_decide_eq_false_2 by apply decimal_no_hyphen.
    by rewrite py_int_decimal.
  - intros n m Hnm. rewrite parse_range_pair.
    destruct (Z.ltb_spec (Z.of_N m) (Z.of_N n)); [lia|].
    eexists. split; [reflexivity|]. rewrite length_py_range. split; [lia|].
    intros k Hk. apply py_range_lookup. lia.
  - intros n m Hnm. rewrite parse_range_pair.
    by destruct (Z.ltb_spec (Z.of_N m) (Z.of_N n)); [|lia].
  - intros tok piece Hin Hnone. unfold parse_range.
    case_bool_decide as Hhyphen.
    + destruct (split_on HYPHEN tok) as [|p0 [|p1 [|p2 ps]]]; try by eexists.
      destruct (py_int p0) eqn:H0; [|by eexists].
      destruct (py_int p1) eqn:H1; [|by eexists].
      apply elem_of_cons in Hin as [->|Hin]; [congruence|].
      apply list_elem_of_singleton in Hin as ->. congruence.
    + rewrite split_on_piece in Hin by done.
      apply list_elem_of_singleton in Hin as ->. rewrite Hnone. by eexists.
Qed.

End ParseRangeFacts.

Lemma parse_range_spec_witness :
  parse_range int_of_digits (lit "7") = inr [7%Z]
  ∧ (∃ l, parse_range int_of_digits (lit "3-5") = inr l
          ∧ length l = 3
          ∧ ∀ k, k < length l → l !! k = Some (3 + Z.of_nat k)%Z)
  ∧ parse_range int_of_digits (lit "5-3") = inl (InvalidRange 5 3)
  ∧ (∃ e, parse_range int_of_digits (lit "3-x") = inl e).
Proof.
  destruct (parse_range_spec int_of_digits int_of_digits_decimal)
    as (H1 & H2 & H3 & H4).
  split_and!.
  - exact (H1 7%N).
  - exact (H2 3%N 5%N ltac:(lia)).
  - exact (H3 5%N 3%N ltac:(lia)).
  - apply (H4 (lit "3-x") (lit "x")).
    + vm_compute. apply list_elem_of_lookup. by exists 1.
    + vm_compute; reflexivity.
Defined.

(** ** Failed runs *)

Lemma delete_frames_failure input_file from_positions w f w' :
  from_positions ≠ [] →
  delete_frames input_file from_positions w = (Failed f, w') →
  w' = w ∧ failure_cause input_file from_positions None None w f.
Proof.
  intros Hne. unfold delete_frames. run_io.
  destruct (files w !! input_file) as [content|] eqn:Hfile;
    [|intros [= <- <-]; by repeat split].
  case_bool_decide as Hnil.
  { intros [= <- <-]. split; [done|]. split; [done|]. by exists content. }
  destruct (first_out_of_range from_positions _) as [pos|] eqn:Hval.
  { intros [= <- <-]. apply first_out_of_range_Some in Hval as [Hin Hout].
    split; [done|]. split; [done|]. split; [done|]. by exists content. }
  apply first_out_of_range_None in Hval.
  destruct (remove_spans_in_range (parse_frames content)
              (reverse from_positions) (split_lines content)) as [lines ->].
  { by apply Forall_reverse. }
  destruct (from_range_str_is_Some from_positions Hne) as [label ->].
  simpl. intros [=].
Qed.

Lemma cross_insert_at_is_Some dest_frames dest_lines to_pos :
  (1 <= to_pos <= Z.of_nat (length dest_frames) + 1)%Z →
  is_Some (cross_insert_at dest_frames dest_lines to_pos).
Proof.
  intros Hto. unfold cross_insert_at.
  destruct (Z.leb_spec to_pos (Z.of_nat (length dest_frames))).
  - destruct (py_index_in_range dest_frames to_pos) as (f & -> & _);
      [unfold in_range; lia|by eexists].
  - destruct dest_frames as [|f0 fs]; [by eexists|].
    rewrite py_index_last.
    destruct (last_is_Some (f0 :: fs)) as [_ [f ->]]; [done|by eexists].
Qed.

Lemma move_frames_failure input_file from_positions to_pos output_file
    copy_mode w f w' :
  from_positions ≠ [] →
  move_frames input_file from_positions to_pos output_file copy_mode w
  = (Failed f, w') →
  w' = w
  ∧ failure_cause input_file from_positions (Some to_pos) output_file w f.
Proof.
  intros Hne. unfold move_frames. run_io.
  destruct (files w !! input_file) as [content|] eqn:Hfile;
    [|intros [= <- <-]; by repeat split].
  case_bool_decide as Hnil.
  { intros [= <- <-]. split; [done|]. split; [done|]. by exists content. }
  destruct (first_out_of_range from_positions _) as [pos|] eqn:Hval.
  { intros [= <- <-]. apply first_out_of_range_Some in Hval as [Hin Hout].
    split; [done|]. split; [done|]. split; [done|]. by exists content. }
  apply first_out_of_range_None in Hval.
  destruct (frame_texts_in_range _ _ Hval) as [texts ->].
  destruct (from_range_str_is_Some from_positions Hne) as [label ->].
  destruct (cross_file_target input_file output_file) as [out|] eqn:Htarget.
  - simpl. destruct (files w !! out) as [dest_content|] eqn:Hout; simpl.
    2:{ intros [= <- <-]. split; [done|]. simpl. by rewrite Htarget. }
    rewrite Hout. simpl.
    destruct ((to_pos <? 1)%Z
              || (Z.of_nat (length (parse_frames dest_content)) + 1 <? to_pos)%Z)
      eqn:Hto; simpl.
    { intros [= <- <-]. split; [done|]. simpl. split; [done|].
      apply orb_true_iff in Hto as [?%Z.ltb_lt|?%Z.ltb_lt].
      - split; [lia|]. exists dest_content. by rewrite Htarget.
      - split; [lia|]. exists dest_content. by rewrite Htarget. }
    apply orb_false_iff in Hto as [?%Z.ltb_ge ?%Z.ltb_ge].
    destruct (cross_insert_at_is_Some (parse_frames dest_content)
                (split_lines dest_content) to_pos) as [at_ ->]; [lia|].
    simpl. destruct copy_mode; simpl; [intros [=]|].
    destruct (remove_spans_in_range (parse_frames content)
                (reverse from_positions) (split_lines content)) as [lines ->].
    { by apply Forall_reverse. }
    simpl. intros [=].
  - destruct ((to_pos <? 1)%Z
              || (Z.of_nat (length (parse_frames content)) <? to_pos)%Z) eqn:Hto; simpl.
    { intros [= <- <-]. split; [done|]. simpl. split; [done|].
      apply orb_true_iff in Hto as [?%Z.ltb_lt|?%Z.ltb_lt].
      - split; [lia|]. exists content. by rewrite Htarget.
      - split; [lia|]. exists content. by rewrite Htarget. }
    case_bool_decide as Hsame; [intros [=]|].
    rewrite py_index_head, py_index_last.
    destruct from_positions as [|p0 ps]; [done|]. simpl head.
    destruct (last_is_Some (p0 :: ps)) as [_ [pl Hpl]]; [done|]. rewrite Hpl.
    simpl.
    assert (in_range (length (parse_frames content)) p0) as H0
      by by inversion Hval.
    assert (in_range (length (parse_frames content)) pl) as Hl.
    { apply (proj1 (Forall_forall _ _) Hval). by apply last_Some_elem_of. }
    destruct (py_index_in_range _ _ H0) as (f0 & -> & _).
    destruct (py_index_in_range _ _ Hl) as (fl & -> & _).
    simpl. intros [=].
Qed.

Section MainFacts.

Variable py_int : str -> option Z.

Variable get_frame_title : str -> str.

Lemma parse_range_error tok e :
  parse_range py_int tok = inl e → token_error py_int tok e.
Proof.
  unfold parse_range. case_bool_decide as Hhyphen.
  - destruct (split_on HYPHEN tok) as [|p0 [|p1 [|p2 ps]]] eqn:Hsplit;
      try (intros [= <-]; simpl; rewrite Hsplit; by split).
    destruct (py_int p0) as [start|] eqn:H0.
    2:{ intros [= <-]. simpl. rewrite Hsplit. split; [by left|done]. }
    destruct (py_int p1) as [stop|] eqn:H1.
    2:{ intros [= <-]. simpl. rewrite Hsplit. split; [right; by left|done]. }
    destruct (Z.ltb_spec stop start); [|done].
    intros [= <-]. split; [done|]. by exists p0, p1.
  - destruct (py_int tok) eqn:Htok; [done|]. intros [= <-]. simpl.
    rewrite split_on_piece by done. split; [by left|done].
Qed.

Lemma parse_range_nonempty tok ps :
  parse_range py_int tok = inr ps → ps ≠ [].
Proof.
  unfold parse_range. intros H Hnil. subst ps.
  repeat case_match; simplify_eq.
  match goal with H : py_range _ _ = [] |- _ =>
    apply (f_equal length) in H; rewrite length_py_range in H end.
  simpl in *. lia.
Qed.

Lemma failure_cause_reported a w f tok from_positions :
  is_Some (files w !! arg_input_file a) →
  arg_from_pos a = Some tok →
  parse_range py_int tok = inr from_positions →
  failure_cause (arg_input_file a) from_positions
    (if arg_delete a then None else arg_to_pos a)
    (if arg_delete a then None else arg_output a) w f →
  well_reported py_int a w f.
Proof.
  intros [c Hc] Htok Hps Hcause.
  destruct f; simpl in *; try done; try by exists tok, from_positions.
  destruct Hcause as [-> Hnone]. congruence.
Qed.

(** C4. A run that fails leaves the world as it found it: no file is
    written or changed and nothing is printed on standard output.  Its
    failure names what was wrong: the position refused, among the source
    positions or as the destination, with the bound [1-bound] it was
    checked against; the file that is missing or has no frames; or the
    piece of the range token that could not be read. *)
Theorem failed_run_writes_nothing a w f w' :
  main py_int get_frame_title a w = (Failed f, w') →
  w' = w ∧ well_reported py_int a w f.
Proof.
  unfold main, list_frames. run_io.
  destruct (files w !! arg_input_file a) as [content|] eqn:Hfile; simpl.
  2:{ intros [= <- <-]. by split. }
  destruct (arg_list a).
  { rewrite Hfile. simpl. case_bool_decide; simpl; intros [=]. }
  destruct (arg_from_pos a) as [tok|] eqn:Htok; simpl.
  2:{ intros [= <- <-]. by split. }
  destruct (arg_delete a) eqn:Hdelete.
  - destruct (parse_range py_int tok) as [e|ps] eqn:Hps; simpl.
    { intros [= <- <-]. split; [done|]. exists tok. split; [done|].
      by apply parse_range_error. }
    intros Hrun.
    destruct (delete_frames_failure _ _ _ _ _
                (parse_range_nonempty _ _ Hps) Hrun) as [-> Hcause].
    split; [done|]. apply (failure_cause_reported a w f tok ps); try done.
    by rewrite Hdelete.
  - destruct (arg_to_pos a) as [to_pos|] eqn:Hto; simpl.
    2:{ intros [= <- <-]. by split. }
    destruct (parse_range py_int tok) as [e|ps] eqn:Hps; simpl.
    { intros [= <- <-]. split; [done|]. exists tok. split; [done|].
      by apply parse_range_error. }
    intros Hrun.
    destruct (move_frames_failure _ _ _ _ _ _ _ _
                (parse_range_nonempty _ _ Hps) Hrun) as [-> Hcause].
    split; [done|]. apply (failure_cause_reported a w f tok ps); try done.
    by rewrite Hdelete, Hto.
Qed.

End MainFacts.

Lemma failed_run_writes_nothing_witness :
  let w := world_of [("a.tex", three_frames)] in
  let a := Args "a.tex" (Some (lit "2")) (Some 9%Z) None false false false false in
  main int_of_digits (fun _ => []) a w = (Failed (ErrToRange 9 3), w)
  ∧ well_reported int_of_digits a w (ErrToRange 9 3).
Proof.
  intros w a.
  assert (main int_of_digits (fun _ => []) a w = (Failed (ErrToRange 9 3), w))
    as H by (vm_compute; reflexivity).
  split; [exact H|].
  exact (proj2 (failed_run_writes_nothing int_of_digits (fun _ => []) a w _ w H)).
Defined.

(** ** The frame index: shape *)

(** X1. The entries of the frame index of a text are non-empty spans of
    its lines, each entry holds the text of exactly those lines, and the
    entries come in document order without overlap. *)
Theorem parse_frames_index_shape content :
  let lines := split_lines content in
  (∀ k f, parse_frames content !! k = Some f →
     start_idx f < end_idx f ≤ length lines
     ∧ frame_text f = join_lines (slice lines (start_idx f) (end_idx f)))
  ∧ (∀ k k' f f', k < k' →
       parse_frames content !! k = Some f →
       parse_frames content !! k' = Some f' →
       end_idx f ≤ start_idx f').
Proof.
  intros lines. split.
  - intros k f Hk.
    destruct (parse_frames_entry content k f Hk)
      as (bl & X & Y & Hwf & Hlines & _ & Hs & He & Ht & _).
    pose proof (block_lines_nonempty bl) as Hne.
    subst lines. rewrite Hlines, Hs, He, Ht, slice_middle, !length_app.
    split; [|done]. destruct (block_lines bl); [done|]. simpl. lia.
  - intros k k' f f'. apply parse_frames_disjoint.
Qed.

(** X2. The frame index of a text is empty exactly when none of its lines
    starts, after white space, with a begin-frame or a shorthand-frame
    marker; lines that only refer to a frame again do not count. *)
Theorem parse_frames_empty_iff content :
  parse_frames content = []
  ↔ Forall (fun l => is_begin l = false ∧ is_shorthand l = false)
      (split_lines content).
Proof.
  assert (∀ ls, Forall (fun l => is_begin l = false ∧ is_shorthand l = false) ls
                ↔ Forall (fun l => opens l = false) ls) as Hopens.
  { intros ls. apply Forall_proper; [|done]. intros l. unfold opens.
    by rewrite orb_false_iff. }
  rewrite Hopens. split.
  - destruct (parse_frames_layout content) as (bs & tail & Hr & Hwf & ->).
    destruct bs as [|b bs]; [|done]. intros _. by rewrite Hr.
  - intros Hall. unfold parse_frames.
    exact (parse_lines_layout [] (split_lines content) Hall).
Qed.



(** ** parse_range: shape of the results *)

Lemma py_range_head_last a b :
  (a < b)%Z →
  head (py_range a b) = Some a ∧ last (py_range a b) = Some (b - 1)%Z.
Proof.
  intros Hab. split.
  - rewrite head_lookup, py_range_lookup by lia. f_equal. lia.
  - rewrite last_lookup, length_py_range, py_range_lookup by lia. f_equal. lia.
Qed.

Lemma length_split_on sep s :
  length (split_on sep s) = S (count_occ N.eq_dec s sep).
Proof.
  induction s as [|c r IH]; [done|].
  rewrite split_on_cons. simpl count_occ.
  destruct (N.eqb_spec c sep) as [->|Hne].
  - destruct (N.eq_dec sep sep); [|done]. simpl. by rewrite IH.
  - destruct (N.eq_dec c sep); [done|].
    pose proof (split_on_nonempty sep r).
    destruct (split_on sep r); [done|]. simpl in *. done.
Qed.

Lemma count_occ_elem_of sep (s : str) :
  sep ∈ s ↔ 0 < count_occ N.eq_dec s sep.
Proof.
  rewrite list_elem_of_In. apply count_occ_In.
Qed.

(** X4. Whatever [int] reads, a list returned by [parse_range] is never
    empty and counts upwards in steps of one: it runs from the number read
    first to the number read last, which is not smaller. *)
Theorem parse_range_result_shape (py_int : str → option Z) tok ps :
  parse_range py_int tok = inr ps →
  ∃ start stop,
    (start <= stop)%Z
    ∧ head ps = Some start ∧ last ps = Some stop
    ∧ length ps = Z.to_nat (stop - start + 1)
    ∧ ∀ k, k < length ps → ps !! k = Some (start + Z.of_nat k)%Z.
Proof.
  unfold parse_range. intros H.
  assert (∃ start stop, (start <= stop)%Z ∧ ps = py_range start (stop + 1))
    as (start & stop & Hle & ->).
  { repeat case_match; simplify_eq.
    - match goal with H : (_ <? _)%Z = false |- _ => apply Z.ltb_ge in H end.
      by eexists _, _.
    - exists z, z. split; [lia|]. unfold py_range.
      replace (Z.to_nat (z + 1 - z)) with 1 by lia. simpl. f_equal. lia. }
  exists start, stop. split; [done|].
  destruct (py_range_head_last start (stop + 1)) as [-> ->]; [lia|].
  rewrite length_py_range. split_and!; try done.
  - f_equal. lia.
  - f_equal. lia.
  - intros k Hk. apply py_range_lookup. lia.
Qed.

Lemma parse_range_result_shape_witness :
  ∃ start stop,
    (start <= stop)%Z
    ∧ head [2; 3; 4]%Z = Some start ∧ last [2; 3; 4]%Z = Some stop
    ∧ length [2; 3; 4]%Z = Z.to_nat (stop - start + 1)
    ∧ ∀ k, k < length [2; 3; 4]%Z → [2; 3; 4]%Z !! k = Some (start + Z.of_nat k)%Z.
Proof.
  apply (parse_range_result_shape int_of_digits (lit "2-4")).
  vm_compute; reflexivity.
Defined.

(** X5. Whatever [int] reads, a token with two or more hyphens is refused
    as an invalid range format that names the whole token; its pieces are
    not even read. *)
Theorem parse_range_many_hyphens (py_int : str → option Z) tok :
  2 ≤ count_occ N.eq_dec tok HYPHEN →
  parse_range py_int tok = inl (InvalidRangeFormat tok).
Proof.
  intros Hc. unfold parse_range.
  rewrite bool_decide_eq_true_2 by (apply count_occ_elem_of; lia).
  pose proof (length_split_on HYPHEN tok) as Hlen.
  destruct (split_on HYPHEN tok) as [|p0 [|p1 [|p2 ps]]]; simpl in Hlen;
    try done; lia.
Qed.

Lemma parse_range_many_hyphens_witness :
  parse_range (fun _ => Some 0%Z) (lit "3-4-5")
  = inl (InvalidRangeFormat (lit "3-4-5")).
Proof.
  apply (parse_range_many_hyphens (fun _ => Some 0%Z) (lit "3-4-5")).
  vm_compute. lia.
Defined.

(** X6. When [int] refuses the empty string, as the builtin does, a token
    with a hyphen in front is refused for its empty first piece, so no
    negative position is ever read; a token that ends in its only hyphen
    is refused as well. *)
Theorem parse_range_dangling_hyphen (py_int : str → option Z) digits :
  py_int [] = None →
  HYPHEN ∉ digits →
  parse_range py_int (HYPHEN :: digits) = inl (InvalidLiteral [])
  ∧ ∃ e, parse_range py_int (digits ++ [HYPHEN]) = inl e.
Proof.
  intros Hempty Hd. unfold parse_range. split.
  - rewrite bool_decide_eq_true_2 by by left.
    change (HYPHEN :: digits) with ([] ++ HYPHEN :: digits).
    rewrite (split_on_app_sep HYPHEN [] digits) by by intros ?%elem_of_nil.
    rewrite split_on_piece by done. by rewrite Hempty.
  - rewrite bool_decide_eq_true_2 by (apply elem_of_app; right; by left).
    rewrite split_on_app_sep by done. rewrite split_on_nil.
    destruct (py_int digits); rewrite ?Hempty; by eexists.
Qed.

Lemma parse_range_dangling_hyphen_witness :
  parse_range int_of_digits (lit "-3") = inl (InvalidLiteral [])
  ∧ ∃ e, parse_range int_of_digits (lit "3-") = inl e.
Proof.
  apply (parse_range_dangling_hyphen int_of_digits (lit "3")).
  - reflexivity.
  - vm_compute. intros Hin. apply list_elem_of_lookup in Hin as [i Hi].
    destruct i as [|i]; simpl in Hi; discriminate.
Defined.

(** ** Which files a command touches *)

(** X7. Whatever its arguments and its outcome, [move_frames] changes no
    file other than its input and its output file, and it writes at most
    twice: nothing, the input alone (in place), the output alone (copy),
    or the output and then the input (cross-file move). *)
Theorem move_frames_touches_only_its_files
    input from_positions to_pos output copy_mode w r w' :
  move_frames input from_positions to_pos output copy_mode w = (r, w') →
  (∀ p, p ≠ input → output ≠ Some p → files w' !! p = files w !! p)
  ∧ ∃ ws, written w' = written w ++ ws
          ∧ (ws = [] ∨ ws = [input]
             ∨ ∃ out, output = Some out ∧ out ≠ input
                      ∧ (ws = [out] ∨ ws = [out; input])).
Proof.
  unfold move_frames, cross_file_target. run_io.
  assert (∀ (fs : gmap path str) a b c d p,
            p ≠ input → output ≠ Some p →
            (output = Some a ∨ a = input) → (output = Some c ∨ c = input) →
            <[c := d]> (<[a := b]> fs) !! p = fs !! p) as Hfs2.
  { intros fs a b c d p Hp Hq [-> | ->] [Hc | ->];
      rewrite !lookup_insert_ne by congruence; done. }
  assert (∀ (fs : gmap path str) a b p,
            p ≠ input → output ≠ Some p →
            (output = Some a ∨ a = input) →
            <[a := b]> fs !! p = fs !! p) as Hfs1.
  { intros fs a b p Hp Hq [-> | ->]; rewrite lookup_insert_ne by congruence; done. }
  destruct output as [out|]; simpl.
  - case_bool_decide as Hout.
    + repeat (case_inner; simplify_eq/=); intros [= <- <-]; simpl; split;
        try done;
        try (intros p Hp Hq; first [by apply Hfs2; auto | by apply Hfs1; auto]);
        first
          [ by (exists []; rewrite app_nil_r; split; [|left])
          | by (exists [out; input]; rewrite <- app_assoc; split; [|];
                [|right; right; exists out; split_and!; [..|right]])
          | by (exists [out]; split; [|];
                [|right; right; exists out; split_and!; [..|left]]) ].
    + subst out.
      repeat (case_inner; simplify_eq/=); intros [= <- <-]; simpl; split;
        try done;
        try (intros p Hp Hq; first [by apply Hfs2; auto | by apply Hfs1; auto]);
        first
          [ by (exists []; rewrite app_nil_r; split; [|left])
          | by (exists [input]; split; [|right; left]) ].
  - repeat (case_inner; simplify_eq/=); intros [= <- <-]; simpl; split;
      try done;
      try (intros p Hp Hq; first [by apply Hfs2; auto | by apply Hfs1; auto]);
      first
        [ by (exists []; rewrite app_nil_r; split; [|left])
        | by (exists [input]; split; [|right; left]) ].
Qed.

Lemma move_frames_touches_only_its_files_witness :
  let w := world_of [("a.tex", three_frames); ("b.tex", one_frame);
                     ("c.tex", one_frame)] in
  let w' := snd (move_frames "a.tex" [2%Z] 1 (Some "b.tex") false w) in
  files w' !! "c.tex" = files w !! "c.tex".
Proof.
  intros w w'.
  refine (proj1 (move_frames_touches_only_its_files "a.tex" [2%Z] 1
                   (Some "b.tex") false w (Done ()) w' _) "c.tex" _ _).
  - vm_compute; reflexivity.
  - done.
  - done.
Defined.

(** X8. Whatever its arguments and its outcome, [delete_frames] changes no
    file other than its input file and writes it at most once. *)
Theorem delete_frames_touches_only_its_file input from_positions w r w' :
  delete_frames input from_positions w = (r, w') →
  (∀ p, p ≠ input → files w' !! p = files w !! p)
  ∧ (written w' = written w ∨ written w' = written w ++ [input]).
Proof.
  unfold delete_frames. run_io.
  repeat (case_inner; simplify_eq/=); intros [= <- <-]; simpl; split;
    try done; try (intros p Hp; by rewrite lookup_insert_ne);
    try (by left); by right.
Qed.

Lemma delete_frames_touches_only_its_file_witness :
  let w := world_of [("a.tex", three_frames); ("b.tex", one_frame)] in
  let w' := snd (delete_frames "a.tex" [2%Z] w) in
  files w' !! "b.tex" = files w !! "b.tex".
Proof.
  intros w w'.
  refine (proj1 (delete_frames_touches_only_its_file "a.tex" [2%Z] w
                   (Done ()) w' _) "b.tex" _).
  - vm_compute; reflexivity.
  - done.
Defined.

(** X9. In place, the copy flag has no effect: a same-file run with it is
    the same run without it, so a frame is never duplicated within its
    own file. *)
Theorem same_file_copy_is_move input from_positions to_pos output w :
  cross_file_target input output = None →
  move_frames input from_positions to_pos output true w
  = move_frames input from_positions to_pos output false w.
Proof.
  intros Hsame. unfold move_frames.
  destruct (cross_file_target input output); [done|]. reflexivity.
Qed.

Lemma same_file_copy_is_move_witness :
  let w := world_of [("a.tex", three_frames)] in
  move_frames "a.tex" [1%Z] 2 (Some "a.tex") true w
  = move_frames "a.tex" [1%Z] 2 (Some "a.tex") false w.
Proof.
  intros w.
  apply (same_file_copy_is_move "a.tex" [1%Z] 2 (Some "a.tex") w).
  reflexivity.
Defined.

(** ** Layouts: cutting and pasting *)

Lemma render_app l1 l2 tail :
  render (l1 ++ l2) tail = render l1 (render l2 tail).
Proof. induction l1 as [|b l1 IH]; simpl; [done|]. by rewrite IH. Qed.

Lemma render_tail bs tail : render bs tail = render bs [] ++ tail.
Proof.
  induction bs as [|b bs IH]; simpl; [done|]. by rewrite IH, <- !app_assoc.
Qed.

Lemma spans_app off l1 l2 :
  spans off (l1 ++ l2)
  = spans off l1 ++ spans (off + length (render l1 [])) l2.
Proof.
  revert off. induction l1 as [|b l1 IH]; intros off; simpl.
  - f_equal. lia.
  - rewrite IH. do 3 f_equal. unfold segment. rewrite !length_app. lia.
Qed.

Lemma spans_texts off bs : frame_text <$> spans off bs = texts bs.
Proof.
  revert off. induction bs as [|b bs IH]; intros off; simpl; [done|].
  by rewrite IH.
Qed.

Lemma texts_app l1 l2 : texts (l1 ++ l2) = texts l1 ++ texts l2.
Proof. unfold texts. by rewrite fmap_app. Qed.

Lemma length_texts bs : length (texts bs) = length bs.
Proof. unfold texts. by rewrite length_fmap. Qed.

Lemma wf_layout_blocks bs tail : wf_layout bs tail → Forall wf_block bs.
Proof.
  induction bs as [|b bs IH]; [done|]. intros [Hb Hrest]. constructor; [done|].
  destruct Hrest as [[_ Hwf]|[_ [-> _]]]; [by apply IH|done].
Qed.

Lemma wf_layout_tail bs tail :
  wf_layout bs tail → Forall (fun l => opens l = false) tail.
Proof.
  induction bs as [|b bs IH]; [done|]. intros [Hb Hrest].
  destruct Hrest as [[_ Hwf]|[_ [_ ->]]]; [by apply IH|done].
Qed.

Lemma wf_layout_app_inv l1 l2 tail :
  wf_layout (l1 ++ l2) tail → l2 ≠ [] →
  Forall (fun b => wf_block b ∧ closed b) l1 ∧ wf_layout l2 tail.
Proof.
  intros Hwf Hne. induction l1 as [|b l1 IH]; [done|].
  destruct Hwf as [Hb Hrest].
  destruct Hrest as [[Hcl Hwf]|[_ [Hnil _]]].
  - destruct (IH Hwf) as [Hall Hl2]. split; [|done]. by constructor.
  - by destruct l1, l2.
Qed.

Lemma wf_layout_app l1 l2 tail :
  Forall (fun b => wf_block b ∧ closed b) l1 → wf_layout l2 tail →
  wf_layout (l1 ++ l2) tail.
Proof.
  intros Hall Hwf. induction Hall as [|b l1 [Hb Hcl] _ IH]; [done|].
  simpl. split; [done|]. left. by split.
Qed.

Lemma wf_layout_all_closed bs tail :
  Forall (fun b => wf_block b ∧ closed b) bs →
  Forall (fun l => opens l = false) tail → wf_layout bs tail.
Proof.
  intros Hall Htail. rewrite <- (app_nil_r bs). by apply wf_layout_app.
Qed.

Lemma with_gap_lines g b : block_lines (with_gap g b) = block_lines b.
Proof. reflexivity. Qed.

Lemma wf_with_gap g b :
  wf_block b → Forall (fun l => opens l = false) g → pre_ok g →
  wf_block (with_gap g b).
Proof. intros [] Hg Hok. by constructor. Qed.

Lemma closed_with_gap g b : closed b → closed (with_gap g b).
Proof. done. Qed.

Lemma render_graft g bs tail :
  render (graft g bs tail).1 (graft g bs tail).2 = g ++ render bs tail.
Proof.
  destruct bs as [|b rest]; simpl; [done|]. unfold segment. simpl.
  by rewrite <- !app_assoc.
Qed.

Lemma texts_graft g bs tail : texts (graft g bs tail).1 = texts bs.
Proof. by destruct bs. Qed.

Lemma wf_graft g bs tail :
  Forall (fun l => opens l = false) g → pre_ok g →
  wf_layout bs tail →
  wf_layout (graft g bs tail).1 (graft g bs tail).2.
Proof.
  intros Hg Hok Hwf. destruct bs as [|b rest]; simpl in *.
  - by apply Forall_app.
  - destruct Hwf as [Hb Hrest]. split; [|done].
    apply wf_with_gap; [done| |].
    + apply Forall_app. split; [done|apply Hb].
    + apply pre_ok_app; [done|apply Hb].
Qed.

Lemma gaps_pass (bs : list block) :
  Forall wf_block bs →
  Forall (fun l => opens l = false) (concat (gap <$> bs))
  ∧ pre_ok (concat (gap <$> bs)).
Proof.
  induction 1 as [|b bs Hb _ [IH1 IH2]]; simpl.
  - split; [done|apply pre_ok_nil].
  - split.
    + apply Forall_app. split; [apply Hb|done].
    + apply pre_ok_app; [apply Hb|done].
Qed.

(** Reading a text that was joined from lines is reading the lines. *)
Lemma parse_frames_join lines :
  Forall (fun p => NEWLINE ∉ p) lines →
  parse_frames (join_lines lines) = parse_lines lines.
Proof.
  intros Hnl. destruct lines as [|l ls]; [reflexivity|].
  unfold parse_frames. by rewrite split_join_lines.
Qed.

Lemma render_no_newline bs tail content :
  split_lines content = render bs tail →
  Forall (fun p => NEWLINE ∉ p) (render bs tail).
Proof. intros <-. apply split_lines_no_newline. Qed.

(** ** Deleting a range of frames *)

Lemma py_range_nil a : py_range a a = [].
Proof. unfold py_range. by rewrite Z.sub_diag. Qed.

Lemma py_range_snoc a b :
  (a <= b)%Z → py_range a (b + 1) = py_range a b ++ [b].
Proof.
  intros Hab. unfold py_range.
  replace (Z.to_nat (b + 1 - a)) with (S (Z.to_nat (b - a))) by lia.
  rewrite seq_S, map_app. simpl. do 2 f_equal. lia.
Qed.

Lemma py_range_in_range a b n :
  (1 <= a)%Z → (b <= Z.of_nat n)%Z → Forall (in_range n) (py_range a (b + 1)).
Proof.
  intros Ha Hb. unfold py_range, in_range. apply Forall_forall.
  intros x [k [-> Hk]]%list_elem_of_fmap. apply elem_of_seq in Hk. lia.
Qed.

Lemma py_index_nat {A} (l : list A) (i : nat) :
  py_index l (Z.of_nat i) = l !! i.
Proof.
  unfold py_index. destruct (Z.ltb_spec (Z.of_nat i) 0); [lia|].
  by rewrite Nat2Z.id.
Qed.

(** Removing the spans of the blocks [mid], last first, from the lines
    leaves their gaps. *)
Lemma remove_spans_blocks mid l1 more T :
  remove_spans (spans 0 (l1 ++ mid) ++ more)
    (reverse (py_range (Z.of_nat (length l1) + 1)
                (Z.of_nat (length l1 + length mid) + 1)))
    (render (l1 ++ mid) [] ++ T)
  = Some (render l1 [] ++ concat (gap <$> mid) ++ T).
Proof.
  revert more T. induction mid as [|bk m0 IH] using rev_ind; intros more T.
  - rewrite Nat.add_0_r, py_range_nil, app_nil_r. done.
  - rewrite length_app. simpl length.
    replace (Z.of_nat (length l1 + (length m0 + 1)) + 1)%Z
      with ((Z.of_nat (length l1 + length m0) + 1) + 1)%Z by lia.
    rewrite py_range_snoc by lia. rewrite reverse_snoc. simpl remove_spans.
    replace (Z.of_nat (length l1 + length m0) + 1 - 1)%Z
      with (Z.of_nat (length l1 + length m0)) by lia.
    rewrite py_index_nat, (app_assoc l1 m0 [bk]), spans_app.
    set (R := render (l1 ++ m0) []).
    assert (render ((l1 ++ m0) ++ [bk]) []
            = R ++ gap bk ++ block_lines bk) as ->.
    { rewrite render_app, render_tail. simpl. unfold segment.
      by rewrite !app_nil_r. }
    rewrite <- (app_assoc (spans 0 (l1 ++ m0))).
    rewrite lookup_app_r by (rewrite length_spans, length_app; lia).
    rewrite length_spans, length_app, Nat.sub_diag. simpl.
    rewrite <- !app_assoc.
    rewrite take_app_add', take_app_length by done.
    replace (length R + length (gap bk) + length (block_lines bk))
      with (length (R ++ gap bk ++ block_lines bk))
      by (rewrite !length_app; lia).
    assert (R ++ gap bk ++ block_lines bk ++ T
            = (R ++ gap bk ++ block_lines bk) ++ T) as ->
      by (by rewrite <- !app_assoc).
    rewrite drop_app_length, <- app_assoc.
    specialize (IH (Frame (length R + length (gap bk))
                      (length (R ++ gap bk ++ block_lines bk))
                      (join_lines (block_lines bk)) :: more)
                  (gap bk ++ T)).
    subst R. rewrite IH. rewrite fmap_app, concat_app. simpl.
    by rewrite app_nil_r, <- !app_assoc.
Qed.

Lemma from_range_str_range a b :
  (a <= b)%Z →
  from_range_str (py_range a (b + 1))
  = Some (if (a <? b)%Z then LabelRange a b else LabelSingle a).
Proof.
  intros Hab. unfold from_range_str.
  rewrite py_index_head, py_index_last, length_py_range.
  destruct (py_range_head_last a (b + 1)) as [-> ->]; [lia|]. simpl.
  destruct (Z.ltb_spec a b).
  - destruct (Nat.ltb_spec 1 (Z.to_nat (b + 1 - a))); [|lia].
    do 2 f_equal. lia.
  - by destruct (Nat.ltb_spec 1 (Z.to_nat (b + 1 - a))); [lia|].
Qed.

(** X10. Deleting the positions [a] to [b] of a file with at least [b]
    frames succeeds, writes the file once, and the frame index of the
    text written holds the texts of the other frames, unchanged and in
    their order: the frames before position [a] and those after [b]. *)
Theorem delete_range_removes_frames w input content a b :
  files w !! input = Some content →
  (1 <= a <= b)%Z → (b <= Z.of_nat (length (parse_frames content)))%Z →
  ∃ content',
    delete_frames input (py_range a (b + 1)) w
    = (Done (),
       World (<[input := content']> (files w)) (written w ++ [input])
         (printed w
          ++ [MsgDeleted (if (a <? b)%Z then LabelRange a b else LabelSingle a)
                input]))
    ∧ frame_text <$> parse_frames content'
      = take (Z.to_nat (a - 1)) (frame_text <$> parse_frames content)
        ++ drop (Z.to_nat b) (frame_text <$> parse_frames content).
Proof.
  intros Hfile Hab Hb.
  destruct (parse_frames_layout content) as (bs & tail & Hr & Hwf & Hspans).
  rewrite Hspans, length_spans in Hb.
  unfold delete_frames. run_io. rewrite Hfile.
  case_bool_decide as Hnil.
  { rewrite Hnil in Hspans. destruct bs; [simpl in Hb; lia|done]. }
  assert (first_out_of_range (py_range a (b + 1)) (length (parse_frames content))
          = None) as ->.
  { apply first_out_of_range_None, py_range_in_range; [lia|].
    by rewrite Hspans, length_spans. }
  (* the layout in three parts *)
  set (n1 := Z.to_nat (a - 1)). set (nm := Z.to_nat (b - a + 1)).
  set (l1 := take n1 bs). set (mid := take nm (drop n1 bs)).
  set (l2 := drop nm (drop n1 bs)).
  assert (bs = l1 ++ mid ++ l2) as Hbs.
  { subst l1 mid l2. by rewrite !take_drop. }
  assert (length l1 = n1) as Hl1.
  { subst l1. rewrite length_take. lia. }
  assert (length mid = nm) as Hmid.
  { subst mid. rewrite length_take, length_drop. lia. }
  assert (mid ≠ []) as Hmne.
  { intros Heq. rewrite Heq in Hmid. simpl in Hmid. lia. }
  assert (a = (Z.of_nat (length l1) + 1)%Z) as Ha by lia.
  assert ((b + 1)%Z = (Z.of_nat (length l1 + length mid) + 1)%Z) as Hb1 by lia.
  rewrite Hspans, Hr, Hbs.
  assert (remove_spans (spans 0 (l1 ++ mid ++ l2))
            (reverse (py_range a (b + 1))) (render (l1 ++ mid ++ l2) tail)
          = Some (render l1 [] ++ concat (gap <$> mid) ++ render l2 tail))
    as ->.
  { rewrite Ha at 1. rewrite Hb1.
    rewrite (app_assoc l1 mid l2), spans_app.
    assert (render ((l1 ++ mid) ++ l2) tail
            = render (l1 ++ mid) [] ++ render l2 tail) as ->.
    { by rewrite render_app, render_tail. }
    apply remove_spans_blocks. }
  rewrite from_range_str_range by lia. simpl.
  eexists. split; [reflexivity|].
  (* the layout of the lines written *)
  rewrite Hbs in Hwf.
  destruct (wf_layout_app_inv l1 (mid ++ l2) tail Hwf) as [Hc1 Hwf'].
  { by destruct mid. }
  pose proof (wf_layout_tail _ _ Hwf') as Htail.
  assert (Forall wf_block mid ∧ wf_layout l2 tail) as [Hwm Hwl2].
  { destruct l2 as [|b2 l2'].
    - rewrite app_nil_r in Hwf'. split; [by eapply wf_layout_blocks|done].
    - destruct (wf_layout_app_inv mid (b2 :: l2') tail Hwf') as [Hcm Hw2];
        [done|]. split; [|done].
      eapply Forall_impl; [exact Hcm|]. by intros ? [? _]. }
  destruct (gaps_pass mid Hwm) as [Hgp Hgok].
  set (G := concat (gap <$> mid)) in *.
  pose proof (render_no_newline _ _ _ Hr) as Hnl. rewrite Hbs in Hnl.
  rewrite (app_assoc l1 mid l2), render_app, render_tail in Hnl.
  rewrite (render_app l1 mid), (render_tail l1) in Hnl.
  assert (Forall (fun p => NEWLINE ∉ p)
            (render l1 [] ++ G ++ render l2 tail)) as Hnl'.
  { apply Forall_app in Hnl as [Hnl1 Hnl2].
    apply Forall_app in Hnl1 as [Hnl1 Hnlm].
    apply Forall_app. split; [done|]. apply Forall_app. split; [|done].
    clear -Hnlm. subst G. induction mid as [|m mid IH]; [done|].
    simpl in *. unfold segment in Hnlm.
    rewrite <- !app_assoc in Hnlm. apply Forall_app in Hnlm as [Hg Hrest].
    apply Forall_app in Hrest as [_ Hrest].
    apply Forall_app. split; [done|]. by apply IH. }
  rewrite parse_frames_join by done.
  rewrite <- render_graft, <- render_tail, <- render_app.
  rewrite parse_lines_layout.
  2:{ apply wf_layout_app; [done|]. by apply wf_graft. }
  rewrite !spans_texts, !texts_app, texts_graft.
  rewrite take_app_length' by (rewrite length_texts; lia).
  rewrite (app_assoc (texts l1)).
  by rewrite drop_app_length' by (rewrite length_app, !length_texts; lia).
Qed.

Lemma delete_range_removes_frames_witness :
  let w := world_of [("a.tex", four_frames)] in
  ∃ content',
    delete_frames "a.tex" [2; 3]%Z w
    = (Done (),
       World (<["a.tex" := content']> (files w)) (written w ++ ["a.tex"])
         (printed w ++ [MsgDeleted (LabelRange 2 3) "a.tex"]))
    ∧ frame_text <$> parse_frames content'
      = [ lit "% first
\begin{frame}{A}
\end{frame}";
          lit "\frame{D}" ].
Proof.
  intros w.
  apply (delete_range_removes_frames w "a.tex" four_frames 2 3).
  - vm_compute; reflexivity.
  - lia.
  - assert (length (parse_frames four_frames) = 4) as ->
      by (vm_compute; reflexivity).
    lia.
Defined.

(** ** Copying frames into another file *)

Lemma render_blocks_only (bs : list block) :
  render (with_gap [] <$> bs) [] = concat (block_lines <$> bs).
Proof.
  induction bs as [|b bs IH]; [done|].
  rewrite !fmap_cons. cbn [render concat]. by rewrite IH.
Qed.

Lemma render_paste g bs :
  bs ≠ [] → render (paste g bs) [] = g ++ concat (block_lines <$> bs).
Proof.
  destruct bs as [|b rest]; [done|]. intros _.
  unfold paste. rewrite fmap_cons. cbn [render concat].
  rewrite render_blocks_only. unfold segment. simpl.
  by rewrite <- app_assoc.
Qed.

Lemma texts_paste g bs : texts (paste g bs) = texts bs.
Proof.
  destruct bs as [|b rest]; [done|]. unfold texts. simpl. f_equal.
  rewrite <- list_fmap_compose. done.
Qed.

Lemma wf_paste g bs :
  Forall (fun l => opens l = false) g → pre_ok g →
  Forall (fun b => wf_block b ∧ closed b) bs →
  Forall (fun b => wf_block b ∧ closed b) (paste g bs).
Proof.
  intros Hg Hok Hall. destruct Hall as [|b rest [Hb Hc] Hrest]; [done|].
  simpl. constructor.
  - split; [by apply wf_with_gap|done].
  - apply Forall_fmap. eapply Forall_impl; [exact Hrest|].
    intros x [Hx Hcx]. split; [|done].
    apply wf_with_gap; [done|done|apply pre_ok_nil].
Qed.

(** The line that opens an entry and the lines below it, in a layout. *)
Lemma entry_opener_body X bl Y f :
  wf_block bl → start_idx f = length X →
  end_idx f = length X + length (block_lines bl) →
  let lines := X ++ block_lines bl ++ Y in
  lines !! opener_idx lines f = Some (opener bl)
  ∧ slice lines (S (opener_idx lines f)) (end_idx f) = body bl.
Proof.
  intros Hwf Hs He lines. subst lines.
  rewrite (opener_idx_layout X bl Y f Hwf Hs), He.
  unfold block_lines. set (cs := comments bl).
  assert (X ++ (cs ++ opener bl :: body bl) ++ Y
          = (X ++ cs) ++ opener bl :: (body bl ++ Y)) as ->
    by (by rewrite <- !app_assoc).
  assert (length X + length cs = length (X ++ cs)) as ->
    by (by rewrite length_app).
  split; [by rewrite list_lookup_middle|].
  assert ((X ++ cs) ++ opener bl :: body bl ++ Y
          = ((X ++ cs) ++ [opener bl]) ++ body bl ++ Y) as ->
    by (by rewrite <- !app_assoc).
  assert (S (length (X ++ cs)) = length ((X ++ cs) ++ [opener bl])) as ->
    by (rewrite (length_app _ [_]); simpl; lia).
  assert (length X + length (cs ++ opener bl :: body bl)
          = length ((X ++ cs) ++ [opener bl]) + length (body bl)) as ->
    by (rewrite !length_app; simpl; lia).
  apply slice_middle.
Qed.

(** A terminated entry of the index is a closed block of the layout. *)
Lemma terminated_closed bs tail k f :
  wf_layout bs tail → spans 0 bs !! k = Some f →
  terminated (render bs tail) f →
  ∃ b, bs !! k = Some b ∧ wf_block b ∧ closed b.
Proof.
  intros Hwf Hk Hterm.
  destruct (spans_lookup [] bs tail k f pre_ok_nil Hwf Hk)
    as (b & X & Y & Hb & Hwb & Hlines & _ & Hs & He & _ & Hend).
  exists b. split; [done|]. split; [done|].
  destruct Hend as [Hcl|[[Hbegin Hopen] _]]; [done|]. exfalso.
  simpl in Hlines. rewrite Hlines in Hterm.
  destruct (entry_opener_body X b Y f Hwb Hs He) as [Hop Hbody].
  unfold terminated in Hterm. cbv zeta in Hterm.
  rewrite Hop, Hbody in Hterm. destruct Hterm as [(op & [= <-] & Hnb)|Hzero].
  - congruence.
  - pose proof (stays_open_depth (body b) 1 ltac:(lia) Hopen
                  (length (body b))) as Hpos.
    rewrite firstn_all in Hpos. lia.
Qed.

Lemma wf_layout_prefix_closed l1 l2 tail k f :
  wf_layout (l1 ++ l2) tail → l1 ≠ [] →
  spans 0 (l1 ++ l2) !! k = Some f → k = pred (length l1) →
  terminated (render (l1 ++ l2) tail) f →
  Forall (fun b => wf_block b ∧ closed b) l1.
Proof.
  intros Hwf Hne Hk -> Hterm.
  destruct (terminated_closed _ _ _ _ Hwf Hk Hterm) as (b & Hb & Hwb & Hcb).
  destruct l1 as [|x l1 _] using rev_ind; [done|]. clear Hne.
  rewrite length_app in Hb. simpl in Hb.
  replace (pred (length l1 + 1)) with (length l1) in Hb by lia.
  rewrite <- app_assoc in Hb. simpl in Hb.
  rewrite list_lookup_middle in Hb by done.
  injection Hb as ->.
  rewrite <- app_assoc in Hwf.
  destruct (wf_layout_app_inv l1 ([b] ++ l2) tail Hwf) as [Hall _]; [done|].
  apply Forall_app. split; [done|]. constructor; [by split|constructor].
Qed.

Lemma frame_texts_blocks l1 mid more :
  frame_texts (spans 0 (l1 ++ mid) ++ more)
    (py_range (Z.of_nat (length l1) + 1)
       (Z.of_nat (length l1 + length mid) + 1))
  = Some (texts mid).
Proof.
  unfold frame_texts. apply mapM_Some. apply Forall2_same_length_lookup.
  split.
  - rewrite length_py_range, length_texts. lia.
  - intros i pos t Hpos Ht.
    pose proof (lookup_lt_Some _ _ _ Ht) as Hi. rewrite length_texts in Hi.
    rewrite py_range_lookup in Hpos by lia. injection Hpos as <-.
    replace (Z.of_nat (length l1) + 1 + Z.of_nat i - 1)%Z
      with (Z.of_nat (length l1 + i)) by lia.
    rewrite py_index_nat, spans_app, <- app_assoc.
    rewrite lookup_app_r by (rewrite length_spans; lia).
    rewrite length_spans, lookup_app_l by (rewrite length_spans; lia).
    replace (length l1 + i - length l1) with i by lia.
    rewrite <- spans_texts with (off := 0 + length (render l1 [])) in Ht.
    rewrite list_lookup_fmap in Ht.
    destruct (spans _ mid !! i); simpl in *; congruence.
Qed.

Lemma split_join_texts (bs : list block) :
  bs ≠ [] →
  Forall (fun p => NEWLINE ∉ p) (concat (block_lines <$> bs)) →
  split_lines (join_lines (texts bs)) = concat (block_lines <$> bs).
Proof.
  intros Hne Hnl. unfold texts, join_lines.
  rewrite (list_fmap_compose block_lines (join_with NEWLINE)).
  rewrite join_with_concat.
  - apply split_join; [|done]. destruct bs as [|b rest]; [done|]. simpl.
    pose proof (block_lines_nonempty b). by destruct (block_lines b).
  - apply Forall_fmap, Forall_forall. intros b _. apply block_lines_nonempty.
Qed.

Lemma blocks_no_newline (bs : list block) T :
  Forall (fun p => NEWLINE ∉ p) (render bs T) →
  Forall (fun p => NEWLINE ∉ p) (concat (block_lines <$> bs)).
Proof.
  induction bs as [|b bs IH]; [done|]. simpl. unfold segment.
  rewrite <- !app_assoc. intros [_ [Hb Hrest]%Forall_app]%Forall_app.
  apply Forall_app. split; [done|]. by apply IH.
Qed.

Lemma spans_lookup_middle l1 b l2 :
  spans 0 (l1 ++ b :: l2) !! length l1
  = Some (Frame (length (render l1 []) + length (gap b))
            (length (render l1 []) + length (gap b) + length (block_lines b))
            (join_lines (block_lines b))).
Proof.
  rewrite spans_app, lookup_app_r by (rewrite length_spans; lia).
  by rewrite length_spans, Nat.sub_diag.
Qed.

(** Splitting a list of blocks at two positions. *)
Lemma split_three {A} (bs : list A) (a b : Z) :
  (1 <= a <= b)%Z → (b <= Z.of_nat (length bs))%Z →
  ∃ l1 mid l2,
    bs = l1 ++ mid ++ l2
    ∧ length l1 = Z.to_nat (a - 1) ∧ length mid = Z.to_nat (b - a + 1)
    ∧ l1 = take (Z.to_nat (a - 1)) bs
    ∧ mid = take (Z.to_nat (b - a + 1)) (drop (Z.to_nat (a - 1)) bs)
    ∧ l2 = drop (Z.to_nat b) bs.
Proof.
  intros Hab Hb.
  exists (take (Z.to_nat (a - 1)) bs),
    (take (Z.to_nat (b - a + 1)) (drop (Z.to_nat (a - 1)) bs)),
    (drop (Z.to_nat b) bs).
  split_and!; try done.
  - rewrite <- (take_drop (Z.to_nat (a - 1)) bs) at 1. f_equal.
    rewrite <- (take_drop (Z.to_nat (b - a + 1)) (drop _ bs)) at 1. f_equal.
    rewrite drop_drop. f_equal. lia.
  - rewrite length_take. lia.
  - rewrite length_take, length_drop. lia.
Qed.

(** X11. Copying the positions [a] to [b] of a file into another file, at
    a position [q] that a frame of that file holds, succeeds when the last
    frame copied is terminated.  Only the other file is written, and the
    frame index of its new text holds its old frame texts with the copied
    texts, unchanged and in order, in front of the frame that was at
    position [q]. *)
Theorem cross_file_copy_inserts_frames
    w input out content dest_content a b q :
  out ≠ input →
  files w !! input = Some content →
  files w !! out = Some dest_content →
  (1 <= a <= b)%Z → (b <= Z.of_nat (length (parse_frames content)))%Z →
  (1 <= q <= Z.of_nat (length (parse_frames dest_content)))%Z →
  (∀ f, parse_frames content !! Z.to_nat (b - 1) = Some f →
        terminated (split_lines content) f) →
  ∃ content',
    move_frames input (py_range a (b + 1)) q (Some out) true w
    = (Done (),
       World (<[out := content']> (files w)) (written w ++ [out])
         (printed w
          ++ [MsgInserted (if (a <? b)%Z then LabelRange a b else LabelSingle a)
                q out]))
    ∧ frame_text <$> parse_frames content'
      = take (Z.to_nat (q - 1)) (frame_text <$> parse_frames dest_content)
        ++ take (Z.to_nat (b - a + 1))
             (drop (Z.to_nat (a - 1)) (frame_text <$> parse_frames content))
        ++ drop (Z.to_nat (q - 1)) (frame_text <$> parse_frames dest_content).
Proof.
  intros Hne Hfile Hout Hab Hb Hq Hterm.
  destruct (parse_frames_layout content) as (bsX & tailX & HrX & HwfX & HsX).
  destruct (parse_frames_layout dest_content)
    as (bsY & tailY & HrY & HwfY & HsY).
  rewrite HsX, length_spans in Hb. rewrite HsY, length_spans in Hq.
  destruct (split_three bsX a b Hab Hb)
    as (x1 & mid & x2 & HbsX & Hx1 & Hmid & _ & _ & _).
  destruct (split_three bsY q q ltac:(lia) ltac:(lia))
    as (y1 & midq & y2 & HbsY & Hy1 & Hmq & _ & _ & _).
  destruct midq as [|bq [|? ?]]; simpl in Hmq; try lia. simpl in HbsY.
  assert (mid ≠ []) as Hmne.
  { intros Heq. rewrite Heq in Hmid. simpl in Hmid. lia. }
  (* the blocks copied are closed *)
  assert (Forall (fun b => wf_block b ∧ closed b) mid) as Hcm.
  { specialize (Hterm (default (Frame 0 0 []) (spans 0 bsX !! Z.to_nat (b - 1)))).
    destruct (lookup_lt_is_Some_2 (spans 0 bsX) (Z.to_nat (b - 1)))
      as [f Hf]; [rewrite length_spans; lia|].
    rewrite HsX, Hf in Hterm. simpl in Hterm. specialize (Hterm eq_refl).
    rewrite HrX, HbsX, (app_assoc x1 mid x2) in Hterm.
    rewrite HbsX, (app_assoc x1 mid x2) in HwfX, Hf.
    pose proof (wf_layout_prefix_closed (x1 ++ mid) x2 tailX _ f HwfX
                  ltac:(by destruct x1, mid) Hf
                  ltac:(rewrite length_app; lia) Hterm) as Hall.
    by apply Forall_app in Hall as [_ ?]. }
  pose proof (render_no_newline _ _ _ HrX) as HnlX.
  rewrite HbsX, render_app, (render_tail x1), render_app in HnlX.
  apply Forall_app in HnlX as [_ HnlM].
  apply blocks_no_newline in HnlM.
  pose proof (split_lines_no_newline dest_content) as HnlY'.
  (* running the command *)
  unfold move_frames, cross_file_target. run_io. rewrite Hfile.
  rewrite (bool_decide_eq_true_2 (out ≠ input)) by done.
  case_bool_decide as Hnil.
  { rewrite Hnil in HsX. destruct bsX; [simpl in Hb; lia|done]. }
  assert (first_out_of_range (py_range a (b + 1)) (length (parse_frames content))
          = None) as ->.
  { apply first_out_of_range_None, py_range_in_range; [lia|].
    by rewrite HsX, length_spans. }
  assert (frame_texts (parse_frames content) (py_range a (b + 1))
          = Some (texts mid)) as ->.
  { rewrite HsX, HbsX, (app_assoc x1 mid x2), spans_app.
    replace a with (Z.of_nat (length x1) + 1)%Z by lia.
    replace (b + 1)%Z with (Z.of_nat (length x1 + length mid) + 1)%Z by lia.
    apply frame_texts_blocks. }
  rewrite from_range_str_range by lia. simpl. rewrite Hout. simpl.
  rewrite Hout. simpl.
  rewrite HsY, length_spans.
  destruct (Z.ltb_spec q 1); [lia|].
  destruct (Z.ltb_spec (Z.of_nat (length bsY) + 1) q); [lia|]. simpl.
  assert (cross_insert_at (spans 0 bsY) (split_lines dest_content) q
          = Some (length (render y1 []) + length (gap bq))) as ->.
  { unfold cross_insert_at. rewrite length_spans.
    destruct (Z.leb_spec q (Z.of_nat (length bsY))); [|lia].
    replace (q - 1)%Z with (Z.of_nat (length y1)) by lia.
    by rewrite py_index_nat, HbsY, spans_lookup_middle. }
  simpl. eexists. split; [reflexivity|].
  (* the layout of the text written *)
  rewrite split_join_texts by done.
  set (R1 := render y1 []). set (R2 := render y2 tailY).
  set (M := concat (block_lines <$> mid)).
  assert (split_lines dest_content
          = R1 ++ gap bq ++ block_lines bq ++ R2) as HLY.
  { rewrite HrY, HbsY, render_app, (render_tail y1). simpl.
    unfold segment. by rewrite <- !app_assoc. }
  assert (render (y1 ++ paste (gap bq) mid ++ with_gap [] bq :: y2) tailY
          = R1 ++ gap bq ++ M ++ block_lines bq ++ R2) as HLnew.
  { rewrite render_app, (render_tail y1), render_app,
      (render_tail (paste _ _)), render_paste by done.
    simpl. unfold segment. simpl. by rewrite <- !app_assoc. }
  rewrite HLY.
  assert (take (length R1 + length (gap bq))
            (R1 ++ gap bq ++ block_lines bq ++ R2)
          ++ M
          ++ drop (length R1 + length (gap bq))
               (R1 ++ gap bq ++ block_lines bq ++ R2)
          = R1 ++ gap bq ++ M ++ block_lines bq ++ R2) as ->.
  { rewrite take_app_add', take_app_length by done.
    rewrite (app_assoc R1 (gap bq)), <- length_app, drop_app_length.
    by rewrite <- !app_assoc. }
  rewrite HbsY in HwfY.
  destruct (wf_layout_app_inv y1 (bq :: y2) tailY HwfY) as [Hc1 Hwq]; [done|].
  destruct Hwq as [Hwbq Hrest].
  rewrite parse_frames_join; cycle 1.
  { rewrite HLY in HnlY'.
    apply Forall_app in HnlY' as [H1 HnlY'].
    apply Forall_app in HnlY' as [H2 HnlY'].
    apply Forall_app in HnlY' as [H3 H4].
    apply Forall_app; split; [done|]. apply Forall_app; split; [done|].
    apply Forall_app; split; [done|]. by apply Forall_app. }
  rewrite <- HLnew.
  rewrite parse_lines_layout; cycle 1.
  { apply wf_layout_app; [done|]. apply wf_layout_app.
    - apply wf_paste; [apply Hwbq|apply Hwbq|done].
    - split; [|done]. apply wf_with_gap; [done|done|apply pre_ok_nil]. }
  rewrite HsX, !spans_texts, HbsX, !texts_app, texts_paste.
  rewrite HbsY, (texts_app y1).
  rewrite (take_app_length' (texts y1)) by (rewrite length_texts; lia).
  rewrite (drop_app_length' (texts y1)) by (rewrite length_texts; lia).
  rewrite (drop_app_length' (texts x1)) by (rewrite length_texts; lia).
  rewrite (take_app_length' (texts mid)) by (rewrite length_texts; lia).
  done.
Qed.

Lemma cross_file_copy_inserts_frames_witness :
  let w := world_of [("a.tex", four_frames); ("b.tex", three_frames)] in
  ∃ content',
    move_frames "a.tex" [2; 3]%Z 2 (Some "b.tex") true w
    = (Done (),
       World (<["b.tex" := content']> (files w)) (written w ++ ["b.tex"])
         (printed w ++ [MsgInserted (LabelRange 2 3) 2 "b.tex"]))
    ∧ frame_text <$> parse_frames content'
      = [ lit "\frame{a}";
          lit "\frame{B}";
          lit "\begin{frame}{C}
\end{frame}";
          lit "\frame{b}";
          lit "\frame{c}" ].
Proof.
  intros w.
  apply (cross_file_copy_inserts_frames w "a.tex" "b.tex" four_frames
           three_frames 2 3 2).
  - done.
  - vm_compute; reflexivity.
  - vm_compute; reflexivity.
  - lia.
  - assert (length (parse_frames four_frames) = 4) as ->
      by (vm_compute; reflexivity).
    lia.
  - assert (length (parse_frames three_frames) = 3) as ->
      by (vm_compute; reflexivity).
    lia.
  - intros f Hf. vm_compute in Hf. injection Hf as <-.
    right. vm_compute. reflexivity.
Defined.

(** ** A cross-file move is a copy and a deletion *)

(** X12. A cross-file move leaves the files as a cross-file copy followed
    by the deletion of the same positions from the source does: the two
    runs end alike, leave every file with the same contents and make the
    same writes in the same order. *)
Theorem cross_file_move_is_copy_then_delete
    w input out from_positions to_pos :
  out ≠ input →
  let moved := move_frames input from_positions to_pos (Some out) false w in
  let copied_then_deleted :=
    (move_frames input from_positions to_pos (Some out) true
       ≫= fun _ => delete_frames input from_positions) w in
  moved.1 = copied_then_deleted.1
  ∧ files moved.2 = files copied_then_deleted.2
  ∧ written moved.2 = written copied_then_deleted.2.
Proof.
  intros Hne moved copied_then_deleted. subst moved copied_then_deleted.
  unfold move_frames, delete_frames, cross_file_target. run_io.
  rewrite (bool_decide_eq_true_2 (out ≠ input)) by done.
  destruct (files w !! input) as [content|] eqn:Hfile; simpl; [|done].
  case_bool_decide as Hnil; simpl; [done|].
  destruct (first_out_of_range from_positions _) as [pos|] eqn:Hval;
    simpl; [done|].
  destruct (frame_texts _ _) as [txts|]; simpl; [|done].
  destruct (from_range_str from_positions) as [label|] eqn:Hlabel;
    simpl; [|done].
  destruct (files w !! out) as [dest_content|] eqn:Hout; simpl; [|done].
  rewrite Hout. simpl.
  destruct ((to_pos <? 1)%Z || _)%bool; simpl; [done|].
  destruct (cross_insert_at _ _ _) as [at_|]; simpl; [|done].
  rewrite lookup_insert_ne by done. rewrite Hfile. simpl.
  rewrite (bool_decide_eq_false_2 (parse_frames content = [])) by done.
  rewrite Hval. simpl.
  destruct (remove_spans _ _ _) as [lines|]; simpl; [|done].
  done.
Qed.

Lemma cross_file_move_is_copy_then_delete_witness :
  let w := world_of [("a.tex", four_frames); ("b.tex", three_frames)] in
  files (move_frames "a.tex" [2; 3]%Z 2 (Some "b.tex") false w).2
  = files ((move_frames "a.tex" [2; 3]%Z 2 (Some "b.tex") true
              ≫= fun _ => delete_frames "a.tex" [2; 3]%Z) w).2.
Proof.
  intros w.
  exact (proj1 (proj2 (cross_file_move_is_copy_then_delete w "a.tex" "b.tex"
                         [2; 3]%Z 2 ltac:(done)))).
Defined.

(** ** Moving one frame within its file, in general *)

Lemma py_take_nat {A} (n : nat) (l : list A) : py_take (Z.of_nat n) l = take n l.
Proof.
  unfold py_take. destruct (Z.ltb_spec (Z.of_nat n) 0); [lia|].
  by rewrite Nat2Z.id.
Qed.

Lemma py_drop_nat {A} (n : nat) (l : list A) : py_drop (Z.of_nat n) l = drop n l.
Proof.
  unfold py_drop. destruct (Z.ltb_spec (Z.of_nat n) 0); [lia|].
  by rewrite Nat2Z.id.
Qed.

(** The first loop of the in-place branch, for one moved position: it
    stops at the frame that is number [to_pos] among the frames kept. *)
Lemma scan_insert_single p to_pos fs rc frames i rem k :
  (1 <= p)%Z → to_pos = (rem + 1 + Z.of_nat k)%Z →
  scan_insert [p] to_pos fs rc frames i rem
  = (fun f => adjust fs rc (start_idx f))
      <$> (if decide (i ≤ Z.to_nat (p - 1))
           then delete (Z.to_nat (p - 1) - i) frames else frames) !! k.
Proof.
  intros Hp. revert i rem k.
  induction frames as [|f rest IH]; intros i rem k Hto.
  { simpl. by destruct (decide _). }
  simpl scan_insert.
  destruct (decide (i = Z.to_nat (p - 1))) as [Heq|Hneq].
  - rewrite bool_decide_eq_true_2
      by (apply list_elem_of_singleton; lia).
    rewrite (IH (S i) rem k Hto).
    destruct (decide (i ≤ Z.to_nat (p - 1))); [|lia].
    destruct (decide (S i ≤ Z.to_nat (p - 1))); [lia|].
    by replace (Z.to_nat (p - 1) - i) with 0 by lia.
  - rewrite bool_decide_eq_false_2
      by (rewrite list_elem_of_singleton; lia).
    destruct (Z.eqb_spec (rem + 1) to_pos) as [Hhit|Hmiss].
    + assert (k = 0) as -> by lia.
      destruct (decide (i ≤ Z.to_nat (p - 1))); [|done].
      by replace (Z.to_nat (p - 1) - i)
        with (S (Z.to_nat (p - 1) - S i)) by lia.
    + destruct k as [|k]; [lia|].
      rewrite (IH (S i) (rem + 1)%Z k ltac:(lia)).
      destruct (decide (i ≤ Z.to_nat (p - 1))),
        (decide (S i ≤ Z.to_nat (p - 1))); try lia; [|done].
      by replace (Z.to_nat (p - 1) - i)
        with (S (Z.to_nat (p - 1) - S i)) by lia.
Qed.

(** The loop of the [else] clause, for one moved position. *)
Lemma scan_last_single p fs rc frames i acc :
  (1 <= p)%Z →
  scan_last [p] fs rc frames i acc
  = match last (if decide (i ≤ Z.to_nat (p - 1))
                then delete (Z.to_nat (p - 1) - i) frames else frames) with
    | Some f => Some (adjust fs rc (end_idx f))
    | None => acc
    end.
Proof.
  intros Hp. revert i acc.
  induction frames as [|f rest IH]; intros i acc.
  { simpl. by destruct (decide _). }
  simpl scan_last.
  destruct (decide (i = Z.to_nat (p - 1))) as [Heq|Hneq].
  - rewrite bool_decide_eq_true_2
      by (apply list_elem_of_singleton; lia).
    rewrite (IH (S i) acc).
    destruct (decide (i ≤ Z.to_nat (p - 1))); [|lia].
    destruct (decide (S i ≤ Z.to_nat (p - 1))); [lia|].
    by replace (Z.to_nat (p - 1) - i) with 0 by lia.
  - rewrite bool_decide_eq_false_2
      by (rewrite list_elem_of_singleton; lia).
    rewrite (IH (S i) (Some (adjust fs rc (end_idx f)))).
    destruct (decide (i ≤ Z.to_nat (p - 1))),
      (decide (S i ≤ Z.to_nat (p - 1))); try lia.
    + replace (Z.to_nat (p - 1) - i)
        with (S (Z.to_nat (p - 1) - S i)) by lia.
      simpl. rewrite last_cons. by destruct (last _).
    + rewrite last_cons. by destruct (last _).
Qed.

Lemma spans_upper off bs k f :
  spans off bs !! k = Some f → end_idx f ≤ off + length (render bs []).
Proof.
  revert off k. induction bs as [|b rest IH]; intros off k; [done|].
  simpl render. unfold segment. rewrite !length_app.
  destruct k as [|k]; simpl.
  - intros [= <-]. simpl. lia.
  - intros Hk. apply IH in Hk. lia.
Qed.

Lemma spans_last off bs f :
  last (spans off bs) = Some f → end_idx f = off + length (render bs []).
Proof.
  revert off. induction bs as [|b rest IH]; intros off; [done|].
  simpl render. unfold segment. rewrite !length_app. simpl spans.
  destruct rest as [|b' rest'].
  - simpl. intros [= <-]. simpl. lia.
  - intros Hl.
    change (last (spans (off + length (gap b) + length (block_lines b))
                    (b' :: rest')) = Some f) in Hl.
    apply IH in Hl. lia.
Qed.

Lemma spans_shift off d bs :
  spans (off + d) bs
  = (fun f => Frame (start_idx f + d) (end_idx f + d) (frame_text f))
      <$> spans off bs.
Proof.
  revert off. induction bs as [|b rest IH]; intros off; [done|].
  simpl. f_equal; [f_equal; lia|].
  replace (off + d + length (gap b) + length (block_lines b))
    with (off + length (gap b) + length (block_lines b) + d) by lia.
  apply IH.
Qed.

Lemma spans_graft off g bs tail :
  spans off (graft g bs tail).1 = spans (off + length g) bs.
Proof.
  destruct bs as [|b rest]; [done|]. simpl. rewrite with_gap_lines, length_app.
  f_equal; [f_equal; lia|]. f_equal. lia.
Qed.

Lemma closed_graft g bs tail :
  Forall (fun l => opens l = false) g → pre_ok g →
  Forall (fun b => wf_block b ∧ closed b) bs →
  Forall (fun b => wf_block b ∧ closed b) (graft g bs tail).1.
Proof.
  intros Hg Hok Hall. destruct Hall as [|b rest [Hb Hc] Hrest]; [done|].
  simpl. constructor; [|done]. split; [|done].
  apply wf_with_gap; [done| |].
  - apply Forall_app. split; [done|apply Hb].
  - apply pre_ok_app; [done|apply Hb].
Qed.

Lemma length_graft g bs tail : length (graft g bs tail).1 = length bs.
Proof. by destruct bs. Qed.

(** Lines put in at the start of the span of block [bq]. *)
Lemma insert_before_block y1 bq y2 T (mid : list block) :
  mid ≠ [] →
  let at_ := length (render y1 []) + length (gap bq) in
  let L := render (y1 ++ bq :: y2) T in
  take at_ L ++ concat (block_lines <$> mid) ++ drop at_ L
  = render (y1 ++ paste (gap bq) mid ++ with_gap [] bq :: y2) T.
Proof.
  intros Hne at_ L. subst at_ L.
  set (R1 := render y1 []). set (R2 := render y2 T).
  set (M := concat (block_lines <$> mid)).
  assert (render (y1 ++ bq :: y2) T
          = R1 ++ gap bq ++ block_lines bq ++ R2) as ->.
  { rewrite render_app, (render_tail y1). simpl. unfold segment.
    by rewrite <- !app_assoc. }
  assert (render (y1 ++ paste (gap bq) mid ++ with_gap [] bq :: y2) T
          = R1 ++ gap bq ++ M ++ block_lines bq ++ R2) as ->.
  { rewrite render_app, (render_tail y1), render_app,
      (render_tail (paste _ _)), render_paste by done.
    simpl. unfold segment. simpl. by rewrite <- !app_assoc. }
  rewrite take_app_add', take_app_length by done.
  rewrite (app_assoc R1 (gap bq)), <- length_app, drop_app_length.
  by rewrite <- !app_assoc.
Qed.

(** Lines put in behind the last block. *)
Lemma insert_after_blocks bs T (mid : list block) :
  mid ≠ [] →
  let at_ := length (render bs []) in
  let L := render bs T in
  take at_ L ++ concat (block_lines <$> mid) ++ drop at_ L
  = render (bs ++ paste [] mid) T.
Proof.
  intros Hne at_ L. subst at_ L.
  set (R1 := render bs []). set (M := concat (block_lines <$> mid)).
  assert (render bs T = R1 ++ T) as -> by apply render_tail.
  assert (render (bs ++ paste [] mid) T = R1 ++ M ++ T) as ->.
  { rewrite render_app, (render_tail bs), (render_tail (paste _ _)),
      render_paste by done. done. }
  by rewrite take_app_length, drop_app_length.
Qed.

(** The frames kept by a move of block [bp], with their lines counted in
    the text without the moved lines, are the index of the layout in
    which [bp] is cut out. *)
Lemma kept_spans l1 bp l2 tail k f :
  let s_p := length (render l1 []) + length (gap bp) in
  let e_p := s_p + length (block_lines bp) in
  delete (length l1) (spans 0 (l1 ++ bp :: l2)) !! k = Some f →
  ∃ f', spans 0 (l1 ++ (graft (gap bp) l2 tail).1) !! k = Some f'
        ∧ adjust (Z.of_nat s_p) (Z.of_nat e_p - Z.of_nat s_p) (start_idx f)
          = Z.of_nat (start_idx f')
        ∧ adjust (Z.of_nat s_p) (Z.of_nat e_p - Z.of_nat s_p) (end_idx f)
          = Z.of_nat (end_idx f').
Proof.
  intros s_p e_p.
  pose proof (block_lines_nonempty bp) as Hne.
  assert (0 < length (block_lines bp)) as Hpos
    by (destruct (block_lines bp); simpl; [done|lia]).
  rewrite !spans_app. simpl spans.
  replace (length l1) with (length (spans 0 l1)) at 1
    by apply length_spans.
  rewrite delete_middle, spans_graft.
  replace (0 + length (render l1 []) + length (gap bp)
           + length (block_lines bp)) with (s_p + length (block_lines bp))
    by (subst s_p; lia).
  replace (0 + length (render l1 []) + length (gap bp)) with s_p
    by (subst s_p; lia).
  rewrite spans_shift.
  destruct (decide (k < length (spans 0 l1))) as [Hlt|Hge].
  - rewrite !lookup_app_l by done. intros Hf. exists f. split; [done|].
    pose proof (spans_bounds _ _ _ _ Hf) as Hb.
    pose proof (spans_upper _ _ _ _ Hf) as Hu.
    unfold adjust.
    destruct (Z.ltb_spec (Z.of_nat s_p) (Z.of_nat (start_idx f)));
      [subst s_p; lia|].
    destruct (Z.ltb_spec (Z.of_nat s_p) (Z.of_nat (end_idx f)));
      [subst s_p; lia|]. done.
  - rewrite !lookup_app_r by lia. rewrite list_lookup_fmap.
    intros [f' [Hf' ->]]%fmap_Some. exists f'. split; [done|]. simpl.
    pose proof (spans_bounds _ _ _ _ Hf') as Hb.
    unfold adjust.
    destruct (Z.ltb_spec (Z.of_nat s_p)
                (Z.of_nat (start_idx f' + length (block_lines bp)))); [|lia].
    destruct (Z.ltb_spec (Z.of_nat s_p)
                (Z.of_nat (end_idx f' + length (block_lines bp)))); [|lia].
    subst e_p. lia.
Qed.

Lemma length_kept l1 bp l2 tail :
  length (delete (length l1) (spans 0 (l1 ++ bp :: l2)))
  = length (spans 0 (l1 ++ (graft (gap bp) l2 tail).1)).
Proof.
  rewrite length_delete
    by (apply lookup_lt_is_Some_2; rewrite length_spans, length_app; simpl; lia).
  rewrite !length_spans, !length_app, length_graft. simpl. lia.
Qed.

(** X13. In a file with [n] frames, the same-file move of the frame at
    position [p] to another position [q] succeeds and writes the file
    once, and the frame index of the text written holds the same frame
    texts with that of the moved frame at position [q] and the others in
    their old order.  When the move takes or passes the last frame, that
    frame has to be terminated. *)
Theorem move_one_frame_in_place w input content p q output copy_mode :
  let T := frame_text <$> parse_frames content in
  let n := length (parse_frames content) in
  files w !! input = Some content →
  cross_file_target input output = None →
  (1 <= p <= Z.of_nat n)%Z → (1 <= q <= Z.of_nat n)%Z → p ≠ q →
  (p = Z.of_nat n ∨ q = Z.of_nat n →
   ∀ f, last (parse_frames content) = Some f →
        terminated (split_lines content) f) →
  ∃ content' t,
    T !! Z.to_nat (p - 1) = Some t
    ∧ move_frames input [p] q output copy_mode w
      = (Done (),
         World (<[input := content']> (files w)) (written w ++ [input])
           (printed w ++ [MsgMoved (LabelSingle p) q input]))
    ∧ frame_text <$> parse_frames content'
      = take (Z.to_nat (q - 1)) (delete (Z.to_nat (p - 1)) T)
        ++ t :: drop (Z.to_nat (q - 1)) (delete (Z.to_nat (p - 1)) T).
Proof.
  intros T n Hfile Hsame Hp Hq Hpq Hterm. subst T n.
  destruct (parse_frames_layout content) as (bs & tail & Hr & Hwf & Hs).
  rewrite Hs, length_spans in Hp, Hq, Hterm.
  destruct (split_three bs p p ltac:(lia) ltac:(lia))
    as (l1 & midp & l2 & Hbs & Hl1 & Hmp & _ & _ & _).
  destruct midp as [|bp [|? ?]]; simpl in Hmp; try lia. simpl in Hbs.
  assert (length bs = length l1 + S (length l2)) as Hn.
  { rewrite Hbs, length_app. simpl. lia. }
  (* what is closed *)
  assert (p = Z.of_nat (length bs) ∨ q = Z.of_nat (length bs) →
          Forall (fun b => wf_block b ∧ closed b) bs) as Hallc.
  { intros Hlast.
    destruct (last (spans 0 bs)) as [fl|] eqn:Hfl.
    2:{ apply last_None in Hfl. apply (f_equal length) in Hfl.
        rewrite length_spans in Hfl. simpl in Hfl. lia. }
    specialize (Hterm Hlast fl). rewrite Hr in Hterm.
    specialize (Hterm eq_refl). rewrite last_lookup, length_spans in Hfl.
    apply (wf_layout_prefix_closed bs [] tail (pred (length bs)) fl);
      rewrite ?app_nil_r; try done.
    intros ->. simpl in Hn. lia. }
  rewrite Hbs in Hwf.
  destruct (wf_layout_app_inv l1 (bp :: l2) tail Hwf) as [Hc1 Hwp]; [done|].
  destruct Hwp as [Hwbp Hrest].
  assert (closed bp) as Hcp.
  { destruct Hrest as [[? _]|[_ [-> _]]]; [done|].
    assert (Forall (fun b => wf_block b ∧ closed b) bs) as Hall.
    { apply Hallc. left. rewrite Hn. simpl. lia. }
    rewrite Hbs in Hall. apply Forall_app in Hall as [_ Hall].
    by inversion Hall as [|? ? [_ ?] _]. }
  assert (wf_layout l2 tail) as Hwl2.
  { destruct Hrest as [[_ ?]|[_ [-> ->]]]; [done|]. by simpl. }
  (* the layout without the moved block *)
  set (K2 := (graft (gap bp) l2 tail).1).
  set (tail' := (graft (gap bp) l2 tail).2).
  assert (wf_layout (l1 ++ K2) tail') as HwK.
  { apply wf_layout_app; [done|].
    apply wf_graft; [apply Hwbp|apply Hwbp|done]. }
  set (s_p := length (render l1 []) + length (gap bp)).
  set (e_p := s_p + length (block_lines bp)).
  assert (split_lines content
          = render l1 [] ++ gap bp ++ block_lines bp ++ render l2 tail) as HL.
  { rewrite Hr, Hbs, render_app, (render_tail l1). simpl. unfold segment.
    by rewrite <- !app_assoc. }
  assert (take s_p (split_lines content) ++ drop e_p (split_lines content)
          = render (l1 ++ K2) tail') as Hlwm.
  { rewrite HL. assert (render (l1 ++ K2) tail'
                         = render l1 [] ++ gap bp ++ render l2 tail) as ->.
    { rewrite render_app, (render_tail l1). subst K2 tail'.
      by rewrite render_graft. }
    set (R1 := render l1 []) in *. set (R2 := render l2 tail).
    assert (take s_p (R1 ++ gap bp ++ block_lines bp ++ R2) = R1 ++ gap bp)
      as ->.
    { rewrite (app_assoc R1). apply take_app_length'.
      rewrite length_app. done. }
    assert (drop e_p (R1 ++ gap bp ++ block_lines bp ++ R2) = R2) as ->.
    { rewrite (app_assoc (gap bp)), (app_assoc R1). apply drop_app_length'.
      rewrite !length_app. subst e_p s_p. lia. }
    by rewrite <- app_assoc. }
  pose proof (split_lines_no_newline content) as Hnl. rewrite HL in Hnl.
  apply Forall_app in Hnl as [Hnl1 Hnl].
  apply Forall_app in Hnl as [Hnlg Hnl].
  apply Forall_app in Hnl as [Hnlp Hnl2].
  assert (Forall (fun x => NEWLINE ∉ x) (render (l1 ++ K2) tail')) as HnlK.
  { rewrite render_app, (render_tail l1). subst K2 tail'.
    rewrite render_graft. apply Forall_app. split; [done|].
    by apply Forall_app. }
  assert (spans 0 bs !! Z.to_nat (p - 1)
          = Some (Frame s_p e_p (join_lines (block_lines bp)))) as Hfp.
  { rewrite Hbs, <- Hl1. apply spans_lookup_middle. }
  exists (join_lines
            (py_take
               (inplace_insert_at [p] q (Z.of_nat s_p)
                  (Z.of_nat e_p - Z.of_nat s_p) (spans 0 bs)
                  (render (l1 ++ K2) tail'))
               (render (l1 ++ K2) tail')
             ++ block_lines bp
             ++ py_drop
                  (inplace_insert_at [p] q (Z.of_nat s_p)
                     (Z.of_nat e_p - Z.of_nat s_p) (spans 0 bs)
                     (render (l1 ++ K2) tail'))
                  (render (l1 ++ K2) tail'))),
    (join_lines (block_lines bp)).
  split_and!.
  - by rewrite Hs, list_lookup_fmap, Hfp.
  - (* running the command *)
    unfold move_frames. run_io. rewrite Hfile, Hsame.
    rewrite (cross_file_target_None _ _ Hsame).
    case_bool_decide as Hnil.
    { rewrite Hnil in Hs. destruct bs; [simpl in Hn; lia|done]. }
    assert (first_out_of_range [p] (length (parse_frames content)) = None)
      as ->.
    { apply first_out_of_range_None. constructor; [|done].
      unfold in_range. rewrite Hs, length_spans. lia. }
    assert (py_index (parse_frames content) (p - 1)
            = Some (Frame s_p e_p (join_lines (block_lines bp)))) as Hpi.
    { replace (p - 1)%Z with (Z.of_nat (Z.to_nat (p - 1))) by lia.
      by rewrite py_index_nat, Hs. }
    unfold frame_texts. simpl. rewrite Hpi. simpl.
    rewrite Hs, length_spans.
    destruct (Z.ltb_spec q 1); [lia|].
    destruct (Z.ltb_spec (Z.of_nat (length bs)) q); [lia|]. simpl.
    rewrite bool_decide_eq_false_2; cycle 1.
    { intros [_ Heq]. rewrite py_index_head in Heq. simpl in Heq.
      congruence. }
    rewrite Hlwm. change [join_lines (block_lines bp)] with (texts [bp]).
    rewrite split_join_texts; simpl; rewrite ?app_nil_r; done.
  - (* the index of the text written *)
    set (L := render (l1 ++ K2) tail') in *.
    set (k := Z.to_nat (q - 1)).
    assert (delete (Z.to_nat (p - 1)) (texts bs) = texts (l1 ++ K2)) as Hdel.
    { subst K2. rewrite Hbs, !texts_app, texts_graft, <- Hl1.
      rewrite <- (length_texts l1). apply (delete_middle (texts l1)). }
    assert (length (l1 ++ K2) = length l1 + length l2) as HlenK.
    { subst K2. by rewrite length_app, length_graft. }
    assert (∃ at_ NB,
              inplace_insert_at [p] q (Z.of_nat s_p)
                (Z.of_nat e_p - Z.of_nat s_p) (spans 0 bs) L = Z.of_nat at_
              ∧ take at_ L ++ block_lines bp ++ drop at_ L = render NB tail'
              ∧ wf_layout NB tail'
              ∧ texts NB
                = take k (texts (l1 ++ K2))
                  ++ join_lines (block_lines bp)
                  :: drop k (texts (l1 ++ K2)))
      as (at_ & NB & -> & HNB & HwNB & HtNB).
    { unfold inplace_insert_at.
      rewrite (scan_insert_single p q _ _ _ 0 0 k) by (subst k; lia).
      rewrite decide_True by lia. rewrite Nat.sub_0_r, <- Hl1.
      destruct (decide (k < length l1 + length l2)) as [Hk|Hk].
      - (* in front of a frame that stays *)
        destruct (lookup_lt_is_Some_2
                    (delete (length l1) (spans 0 bs)) k) as [f Hf].
        { rewrite Hbs, (length_kept l1 bp l2 tail), length_spans.
          fold K2. lia. }
        rewrite Hf. simpl.
        rewrite Hbs in Hf.
        destruct (kept_spans l1 bp l2 tail k f Hf) as (f' & Hf' & Hst & _).
        fold K2 in Hf'. fold s_p e_p in Hst. rewrite Hst.
        destruct (split_three (l1 ++ K2) (Z.of_nat k + 1) (Z.of_nat k + 1)
                    ltac:(lia) ltac:(lia))
          as (y1 & midq & y2 & HK & Hy1 & Hmq & _ & _ & _).
        destruct midq as [|bq [|? ?]]; simpl in Hmq; try lia. simpl in HK.
        replace (Z.to_nat (Z.of_nat k + 1 - 1)) with k in Hy1 by lia.
        rewrite HK, <- Hy1, spans_lookup_middle in Hf'.
        injection Hf' as <-. simpl.
        exists (length (render y1 []) + length (gap bq)),
          (y1 ++ paste (gap bq) [bp] ++ with_gap [] bq :: y2).
        split; [done|].
        rewrite HK in HwK.
        destruct (wf_layout_app_inv y1 (bq :: y2) tail' HwK) as [Hcy1 Hwq];
          [done|].
        destruct Hwq as [Hwbq Hrestq].
        split_and!.
        + subst L. rewrite HK.
          rewrite <- (insert_before_block y1 bq y2 tail' [bp]) by done.
          simpl. by rewrite app_nil_r.
        + apply wf_layout_app; [done|]. apply wf_layout_app.
          * apply wf_paste; [apply Hwbq|apply Hwbq|].
            by constructor; [split|constructor].
          * split; [|done]. apply wf_with_gap; [done|done|apply pre_ok_nil].
        + rewrite HK, !texts_app, texts_paste.
          rewrite (take_app_length' (texts y1))
            by (rewrite length_texts; lia).
          rewrite (drop_app_length' (texts y1))
            by (rewrite length_texts; lia).
          done.
      - (* behind the last frame that stays *)
        assert (k = length l1 + length l2) as Hkn by (subst k; lia).
        assert (Forall (fun b => wf_block b ∧ closed b) bs) as Hall.
        { apply Hallc. right. subst k. lia. }
        rewrite lookup_ge_None_2; cycle 1.
        { rewrite Hbs, (length_kept l1 bp l2 tail), length_spans.
          fold K2. lia. }
        simpl.
        destruct (spans 0 bs) as [|f0 fr] eqn:Hsp.
        { apply (f_equal length) in Hsp. rewrite length_spans in Hsp.
          simpl in Hsp. lia. }
        rewrite <- Hsp.
        rewrite (scan_last_single p) by lia.
        rewrite decide_True by lia. rewrite Nat.sub_0_r, <- Hl1.
        destruct (last (delete (length l1) (spans 0 bs))) as [f|] eqn:Hlast.
        2:{ apply last_None in Hlast. apply (f_equal length) in Hlast.
            rewrite Hbs, (length_kept l1 bp l2 tail), length_spans in Hlast.
            fold K2 in Hlast. simpl in Hlast. lia. }
        rewrite last_lookup in Hlast.
        rewrite Hbs in Hlast.
        destruct (kept_spans l1 bp l2 tail _ f Hlast) as (f' & Hf' & _ & Hen).
        fold K2 in Hf'. fold s_p e_p in Hen.
        rewrite (length_kept l1 bp l2 tail) in Hf'. fold K2 in Hf'.
        rewrite <- last_lookup in Hf'. apply spans_last in Hf'.
        simpl in Hf'. rewrite Hen, Hf'.
        assert (0 < length (render (l1 ++ K2) [])) as Hpos.
        { destruct (l1 ++ K2) as [|b0 r0] eqn:HK0; [simpl in HlenK; lia|].
          simpl. unfold segment. rewrite !length_app.
          pose proof (block_lines_nonempty b0).
          destruct (block_lines b0); [done|simpl; lia]. }
        destruct (Z.eqb_spec (Z.of_nat (length (render (l1 ++ K2) []))) 0);
          [lia|].
        exists (length (render (l1 ++ K2) [])), ((l1 ++ K2) ++ paste [] [bp]).
        split; [done|].
        rewrite Hbs in Hall. apply Forall_app in Hall as [Ha1 Ha2].
        inversion Ha2 as [|? ? _ Ha3]; subst.
        split_and!.
        + subst L.
          rewrite <- (insert_after_blocks (l1 ++ K2) tail' [bp]) by done.
          simpl. by rewrite app_nil_r.
        + apply wf_layout_all_closed; [|by apply (wf_layout_tail _ _ HwK)].
          apply Forall_app. split.
          * apply Forall_app. split; [done|].
            apply closed_graft; [apply Hwbp|apply Hwbp|done].
          * apply wf_paste; [done|apply pre_ok_nil|].
            by constructor; [split|constructor].
        + rewrite texts_app, texts_paste.
          rewrite take_ge, drop_ge by (rewrite length_texts; lia).
          done. }
    rewrite py_take_nat, py_drop_nat.
    rewrite parse_frames_join; cycle 1.
    { apply Forall_app. split; [by apply Forall_take|].
      apply Forall_app. split; [done|by apply Forall_drop]. }
    rewrite HNB, parse_lines_layout by done.
    by rewrite spans_texts, HtNB, Hs, spans_texts, Hdel.
Qed.

Lemma move_one_frame_in_place_witness :
  let w := world_of [("a.tex", four_frames)] in
  ∃ content' t,
    (frame_text <$> parse_frames four_frames) !! 3 = Some t
    ∧ move_frames "a.tex" [4]%Z 2 None false w
      = (Done (),
         World (<["a.tex" := content']> (files w)) (written w ++ ["a.tex"])
           (printed w ++ [MsgMoved (LabelSingle 4) 2 "a.tex"]))
    ∧ frame_text <$> parse_frames content'
      = take 1 (delete 3 (frame_text <$> parse_frames four_frames))
        ++ t :: drop 1 (delete 3 (frame_text <$> parse_frames four_frames)).
Proof.
  intros w.
  apply (move_one_frame_in_place w "a.tex" four_frames 4 2 None false).
  - vm_compute; reflexivity.
  - reflexivity.
  - assert (length (parse_frames four_frames) = 4) as ->
      by (vm_compute; reflexivity).
    lia.
  - assert (length (parse_frames four_frames) = 4) as ->
      by (vm_compute; reflexivity).
    lia.
  - lia.
  - intros _ f Hf. vm_compute in Hf. injection Hf as <-.
    left. vm_compute. eexists. split; reflexivity.
Defined.

(** ** Frame titles *)

Lemma starts_with_app l s : starts_with l (l ++ s) = true.
Proof.
  induction l as [|c l IH]; [done|]. simpl. by rewrite N.eqb_refl, IH.
Qed.

Lemma starts_with_single c s : starts_with [c] (c :: s) = true.
Proof. simpl. by rewrite N.eqb_refl. Qed.

Lemma starts_with_head c l s :
  head s ≠ Some c → starts_with (c :: l) s = false.
Proof.
  destruct s as [|d s]; [done|]. simpl. intros Hne.
  destruct (N.eqb_spec c d) as [->|]; [by destruct Hne|done].
Qed.

Lemma rmatch_lit {A} l s g (k : str → option str → option A) :
  rmatch (Lit l) (l ++ s) g k = k s g.
Proof. simpl. by rewrite starts_with_app, drop_app_length. Qed.

(** A greedy run stops at the first character outside the class, and
    keeps the whole run when the continuation accepts there. *)
Lemma star_stop {A} cls o s (k : str → option A) x :
  Forall (fun c => cls c = true) o →
  match s with c :: _ => cls c = false | [] => True end →
  k s = Some x → star cls (o ++ s) k = Some x.
Proof.
  intros Ho Hs Hk. induction Ho as [|c o Hc _ IH].
  - destruct s as [|c r]; simpl; [done|]. by rewrite Hs.
  - simpl. by rewrite Hc, IH.
Qed.

Lemma star_result {A} cls s (k : str → option A) x :
  star cls s k = Some x → ∃ s', k s' = Some x.
Proof.
  induction s as [|c r IH]; simpl; [by exists []|].
  destruct (cls c); [|by exists (c :: r)].
  destruct (star cls r k) eqn:Hr; [|by exists (c :: r)].
  intros [= <-]. by apply IH.
Qed.

(** Whatever a match returns was returned by its continuation. *)
Lemma rmatch_result {A} r s g (k : str → option str → option A) x :
  rmatch r s g k = Some x → ∃ s' g', k s' g' = Some x.
Proof.
  revert s g k. induction r as [l|cls|cls|r IH|r IH|r1 IH1 r2 IH2];
    intros s g k; simpl.
  - destruct (starts_with l s); [eauto|done].
  - intros [s' Hs']%star_result. eauto.
  - destruct s as [|c s']; [done|]. destruct (cls c); [|done].
    intros [s'' Hs']%star_result. eauto.
  - destruct (rmatch r s g k) eqn:Hr; [|eauto].
    intros [= <-]. by apply IH in Hr.
  - intros (s' & g' & Hk)%IH. eauto.
  - intros (s' & g' & Hk)%IH1. by apply IH2 in Hk.
Qed.

Lemma re_search_unfold r s :
  re_search r s
  = match rmatch r s None (fun _ g => Some g) with
    | Some g => Some g
    | None => match s with [] => None | _ :: s' => re_search r s' end
    end.
Proof. by destruct s. Qed.

Lemma re_search_here r s g :
  rmatch r s None (fun _ g => Some g) = Some g → re_search r s = Some g.
Proof. intros H. destruct s; simpl in *; by rewrite H. Qed.

Lemma re_search_result r s g :
  re_search r s = Some g →
  ∃ s', rmatch r s' None (fun _ g => Some g) = Some g.
Proof.
  induction s as [|c s IH]; simpl.
  - destruct (rmatch r [] None _) eqn:Hr; [|done]. intros [= <-]. eauto.
  - destruct (rmatch r (c :: s) None _) eqn:Hr; [|done].
    intros [= <-]. eauto.
Qed.

(** A pattern that starts with a literal is not matched where the literal
    is not. *)
Lemma re_search_skip d l r pre s :
  d ∉ pre →
  re_search (Seq (Lit (d :: l)) r) (pre ++ s)
  = re_search (Seq (Lit (d :: l)) r) s.
Proof.
  intros Hpre. induction pre as [|c pre IH]; [done|].
  apply not_elem_of_cons in Hpre as [Hne Hpre].
  simpl. destruct (N.eqb_spec d c) as [->|_]; [done|]. simpl.
  by apply IH.
Qed.

Lemma re_search_absent l r s :
  occurs l s = false → re_search (Seq (Lit l) r) s = None.
Proof.
  induction s as [|c s IH]; simpl.
  - intros H. apply orb_false_iff in H as [-> _]. done.
  - intros H. apply orb_false_iff in H as [-> H]. by apply IH.
Qed.

Lemma not_char_run c o :
  c ∉ o → Forall (fun x => not_char c x = true) o.
Proof.
  intros Hc. apply Forall_forall. intros x Hx. unfold not_char.
  destruct (N.eqb_spec x c) as [->|]; [done|done].
Qed.

Lemma length_run {A} (o : list A) c rest :
  take (length (o ++ c :: rest) - length (c :: rest)) (o ++ c :: rest) = o.
Proof.
  rewrite length_app. simpl.
  replace (length o + S (length rest) - S (length rest)) with (length o)
    by lia.
  by rewrite take_app_length.
Qed.

(** The braces of the title: the group runs to the first closing brace. *)
Lemma rmatch_title_braces T rest g :
  RBRACE ∉ T →
  rmatch (Seq (Lit [LBRACE]) (Seq (Group (Star (not_char RBRACE))) (Lit [RBRACE])))
    (LBRACE :: T ++ RBRACE :: rest) g (fun _ g => Some g)
  = Some (Some T).
Proof.
  intros HT. cbn [rmatch].
  change (LBRACE :: T ++ RBRACE :: rest) with ([LBRACE] ++ T ++ RBRACE :: rest).
  rewrite starts_with_app, drop_app_length.
  apply star_stop; [by apply not_char_run|done|].
  rewrite starts_with_single. by rewrite length_run.
Qed.

(** An optional bracketed part in front of what the rest of the pattern
    matches. *)
Lemma rmatch_bracketed {A} open close b s g r
    (k : str → option str → option A) x :
  bracketed open close b →
  (b = [] → head s ≠ Some open) →
  rmatch r s g k = Some x →
  rmatch (Seq (Opt (Seq (Lit [open]) (Seq (Star (not_char close)) (Lit [close]))))
            r) (b ++ s) g k
  = Some x.
Proof.
  intros [->|(inner & -> & Hin)] Hhead Hr.
  - simpl app. cbn [rmatch]. rewrite starts_with_head by auto. done.
  - cbn [rmatch].
    change ((open :: inner ++ [close]) ++ s)
      with ([open] ++ (inner ++ [close]) ++ s).
    rewrite starts_with_app, drop_app_length, <- app_assoc. simpl app.
    rewrite (star_stop _ inner (close :: s) _ x); [done|by apply not_char_run| |].
    + unfold not_char. by rewrite N.eqb_refl.
    + rewrite starts_with_single. simpl drop. done.
Qed.

Lemma rmatch_seq_lit {A} l r s g (k : str → option str → option A) :
  rmatch (Seq (Lit l) r) (l ++ s) g k = rmatch r s g k.
Proof. cbn [rmatch]. by rewrite starts_with_app, drop_app_length. Qed.

Lemma starts_with_split l s :
  starts_with l s = true → s = l ++ drop (length l) s.
Proof.
  revert s. induction l as [|c l IH]; intros [|d s]; simpl; try done.
  intros [Hc Hl]%andb_true_iff. apply N.eqb_eq in Hc as ->.
  f_equal. by apply IH.
Qed.

Lemma re_search_untitled s :
  untitled s = true → re_search begin_title s = None.
Proof.
  assert (∀ s, (if starts_with (lit "\begin{frame}") s
                then match drop (length (lit "\begin{frame}")) s with
                     | [] => true
                     | c :: _ =>
                         negb ((c =? LANGLE) || (c =? LBRACKET)
                               || (c =? LBRACE))%N
                     end
                else true) = true →
               rmatch begin_title s None (fun _ g => Some g) = None) as Hhere.
  { clear s. intros s. unfold begin_title. cbn [rmatch].
    destruct (starts_with (lit "\begin{frame}") s); [|done].
    destruct (drop (length (lit "\begin{frame}")) s) as [|c r]; [done|].
    intros Hc. apply negb_true_iff in Hc.
    apply orb_false_iff in Hc as [Hc H3].
    apply orb_false_iff in Hc as [H1 H2].
    rewrite (starts_with_head LANGLE), (starts_with_head LBRACKET),
      (starts_with_head LBRACE); [done|simpl..].
    - intros [= ->]. by rewrite N.eqb_refl in H3.
    - intros [= ->]. by rewrite N.eqb_refl in H2.
    - intros [= ->]. by rewrite N.eqb_refl in H1. }
  induction s as [|c s IH]; intros Hu.
  - apply andb_true_iff in Hu as [Hu _]. rewrite re_search_unfold.
    by rewrite (Hhere [] Hu).
  - change (untitled (c :: s)) with
      ((if starts_with (lit "\begin{frame}") (c :: s)
        then match drop (length (lit "\begin{frame}")) (c :: s) with
             | [] => true
             | c :: _ =>
                 negb ((c =? LANGLE) || (c =? LBRACKET) || (c =? LBRACE))%N
             end
        else true) && untitled s) in Hu.
    apply andb_true_iff in Hu as [Hu Hs]. rewrite re_search_unfold.
    rewrite (Hhere (c :: s) Hu). by apply IH.
Qed.

Lemma rmatch_seq {A} r1 r2 s g (k : str → option str → option A) :
  rmatch (Seq r1 r2) s g k = rmatch r1 s g (fun s' g' => rmatch r2 s' g' k).
Proof. done. Qed.

Lemma rmatch_group_set r l s g x :
  rmatch (Seq (Group r) (Lit l)) s g (fun _ g => Some g) = Some x →
  is_Some x.
Proof.
  cbn [rmatch]. intros (s' & g' & H)%rmatch_result.
  destruct (starts_with l s'); [|done]. injection H as <-. eauto.
Qed.

(** Group 1 takes part in every match of the first pattern. *)
Lemma begin_title_group s g : re_search begin_title s = Some g → is_Some g.
Proof.
  intros [s' H]%re_search_result. unfold begin_title in H.
  rewrite rmatch_seq in H. apply rmatch_result in H as (s1 & g1 & H).
  rewrite rmatch_seq in H. apply rmatch_result in H as (s2 & g2 & H).
  rewrite rmatch_seq in H. apply rmatch_result in H as (s3 & g3 & H).
  rewrite rmatch_seq in H. apply rmatch_result in H as (s4 & g4 & H).
  by apply rmatch_group_set in H.
Qed.

Section TitleFacts.

Variable unicode_word : N -> bool.

(** Group 1 takes part in every match of the second pattern. *)
Lemma shorthand_title_group s g :
  re_search (shorthand_title unicode_word) s = Some g → is_Some g.
Proof.
  intros [s' H]%re_search_result. unfold shorthand_title in H.
  rewrite rmatch_seq in H. apply rmatch_result in H as (s1 & g1 & H).
  by apply rmatch_group_set in H.
Qed.

(** X14. The title of a frame text that holds no backslash before its
    [\begin{frame}] is what stands in the braces behind it, up to the
    first closing brace, whether or not an overlay specification in angle
    brackets and options in square brackets come in between. *)
Theorem title_of_begin_frame pre ov opt T rest :
  BACKSLASH ∉ pre →
  bracketed LANGLE RANGLE ov → bracketed LBRACKET RBRACKET opt →
  RBRACE ∉ T →
  get_frame_title unicode_word
    (pre ++ lit "\begin{frame}" ++ ov ++ opt ++ LBRACE :: T ++ RBRACE :: rest)
  = T.
Proof.
  intros Hpre Hov Hopt HT. unfold get_frame_title, begin_title.
  change (lit "\begin{frame}") with (BACKSLASH :: lit "begin{frame}") at 1.
  rewrite re_search_skip by done.
  change (BACKSLASH :: lit "begin{frame}") with (lit "\begin{frame}").
  rewrite (re_search_here _ _ (Some T)); [done|].
  rewrite rmatch_seq_lit.
  apply rmatch_bracketed; [done| |].
  { intros _. by destruct Hopt as [->|(inner & -> & _)]. }
  apply rmatch_bracketed; [done|done|].
  by apply rmatch_title_braces.
Qed.

(** X15. A frame text that holds no backslash before [\frame{\name}],
    [name] a non-empty run of word characters, and no [\begin{frame}]
    followed by [<], [[] or [{], has the title [\name]. *)
Theorem title_of_shorthand_frame pre name rest :
  BACKSLASH ∉ pre → name ≠ [] →
  Forall (fun c => is_word unicode_word c = true) name →
  untitled (pre ++ lit "\frame{\" ++ name ++ RBRACE :: rest) = true →
  get_frame_title unicode_word
    (pre ++ lit "\frame{\" ++ name ++ RBRACE :: rest)
  = BACKSLASH :: name.
Proof.
  intros Hpre Hne Hname Hu. unfold get_frame_title.
  rewrite (re_search_untitled _ Hu). unfold shorthand_title.
  change (lit "\frame{\") with (BACKSLASH :: lit "frame{\") at 1.
  rewrite re_search_skip by done.
  change (BACKSLASH :: lit "frame{\") with (lit "\frame{\").
  rewrite (re_search_here _ _ (Some name)); [done|].
  rewrite rmatch_seq_lit. cbn [rmatch].
  destruct Hname as [|c name Hc Hname]; [done|].
  change ((c :: name) ++ RBRACE :: rest) with (c :: name ++ RBRACE :: rest)
    at 1.
  cbv beta iota. rewrite Hc. apply star_stop; [done|done|].
  rewrite starts_with_single. do 2 f_equal. apply (length_run (c :: name)).
Qed.

(** X16. A frame text in which no [\begin{frame}] is followed by [<], [[]
    or [{] and [\frame{\] does not occur has the title [(no title)]. *)
Theorem title_absent text :
  untitled text = true → occurs (lit "\frame{\") text = false →
  get_frame_title unicode_word text = lit "(no title)".
Proof.
  intros Hu Hs. unfold get_frame_title.
  rewrite (re_search_untitled _ Hu). unfold shorthand_title.
  by rewrite re_search_absent.
Qed.

End TitleFacts.

Lemma title_of_begin_frame_witness :
  get_frame_title (fun _ => false)
    (lit "  \begin{frame}<1->[fragile]{Intro {x} y}")
  = lit "Intro {x".
Proof.
  apply (title_of_begin_frame (fun _ => false) (lit "  ") (lit "<1->")
           (lit "[fragile]") (lit "Intro {x") (lit " y}")).
  - apply (bool_decide_unpack _); vm_compute; exact I.
  - right. exists (lit "1-"). split; [reflexivity|].
    apply (bool_decide_unpack _); vm_compute; exact I.
  - right. exists (lit "fragile"). split; [reflexivity|].
    apply (bool_decide_unpack _); vm_compute; exact I.
  - apply (bool_decide_unpack _); vm_compute; exact I.
Defined.

Lemma title_of_shorthand_frame_witness :
  get_frame_title (fun _ => false) (lit "  \frame{\titlepage}")
  = lit "\titlepage".
Proof.
  apply (title_of_shorthand_frame (fun _ => false) (lit "  ")
           (lit "titlepage") []).
  - apply (bool_decide_unpack _); vm_compute; exact I.
  - done.
  - apply Forall_forall. intros c Hc.
    apply list_elem_of_lookup in Hc as [i Hi].
    do 9 (destruct i as [|i];
          [injection Hi as <-; vm_compute; reflexivity|]).
    discriminate.
  - vm_compute. reflexivity.
Defined.

Lemma title_absent_witness :
  get_frame_title (fun _ => false) (lit "\begin{frame}
\frametitle{Caches}
\end{frame}")
  = lit "(no title)".
Proof.
  apply (title_absent (fun _ => false)); vm_compute; reflexivity.
Defined.

(** ** Listing, and the empty list of positions *)

Lemma imap_numbers {A B} (g : A → B) (l : list A) n :
  (imap (fun i x => (i + n, g x)) l).*1 = seq n (length l)
  ∧ (imap (fun i x => (i + n, g x)) l).*2 = g <$> l.
Proof.
  revert n. induction l as [|x l IH]; intros n; [done|].
  rewrite imap_cons. simpl.
  assert (imap ((fun i x => (i + n, g x)) ∘ S) l
          = imap (fun i x => (i + S n, g x)) l) as ->.
  { apply imap_ext. intros i y _. simpl. f_equal. lia. }
  destruct (IH (S n)) as [H1 H2]. split; f_equal; [exact H1|exact H2].
Qed.

(** X17. With [--list] and an input file that exists, a run succeeds
    whatever the other options are: it writes and changes no file and
    prints one message, that there are no frames, or else the frames
    numbered from 1 in the order of the file, each with the title of its
    text. *)
Theorem list_only_reads (py_int : str → option Z) (title : str → str)
    a w content :
  arg_list a = true →
  files w !! arg_input_file a = Some content →
  ∃ msg,
    main py_int title a w
    = (Done (), World (files w) (written w) (printed w ++ [msg]))
    ∧ (parse_frames content = [] → msg = MsgNoFrames (arg_input_file a))
    ∧ (parse_frames content ≠ [] →
       ∃ entries,
         msg = MsgFrames (arg_input_file a) entries
         ∧ entries.*1 = seq 1 (length (parse_frames content))
         ∧ entries.*2 = title <$> (frame_text <$> parse_frames content)).
Proof.
  intros Hlist Hfile. unfold main, list_frames. run_io.
  rewrite Hfile, Hlist. simpl. rewrite Hfile. simpl.
  case_bool_decide as Hnil; simpl.
  - eexists. split; [reflexivity|]. split; [done|]. by intros [].
  - eexists. split; [reflexivity|]. split; [done|]. intros _.
    eexists. split; [reflexivity|].
    destruct (imap_numbers (title ∘ frame_text) (parse_frames content) 1)
      as [H1 H2].
    split; [exact H1|]. rewrite <- list_fmap_compose. exact H2.
Qed.

Lemma list_only_reads_witness :
  let a := Args "a.tex" (Some (lit "2")) (Some 1%Z) None false false true true in
  let w := world_of [("a.tex", four_frames)] in
  ∃ msg,
    main int_of_digits (get_frame_title (fun _ => false)) a w
    = (Done (), World (files w) (written w) (printed w ++ [msg]))
    ∧ (parse_frames four_frames = [] → msg = MsgNoFrames "a.tex")
    ∧ (parse_frames four_frames ≠ [] →
       ∃ entries,
         msg = MsgFrames "a.tex" entries
         ∧ entries.*1 = seq 1 (length (parse_frames four_frames))
         ∧ entries.*2
           = get_frame_title (fun _ => false)
               <$> (frame_text <$> parse_frames four_frames)).
Proof.
  intros a w.
  apply (list_only_reads int_of_digits (get_frame_title (fun _ => false))
           a w four_frames).
  - reflexivity.
  - vm_compute; reflexivity.
Defined.

(** X18. Called with an empty list of positions on a file that has
    frames, [delete_frames] writes the file back with its content
    unchanged and then fails on taking the first position, with nothing
    printed; [move_frames] fails on the same step before it reads or
    writes any destination. *)
Theorem empty_positions_index_error w input content to_pos output copy_mode :
  files w !! input = Some content →
  parse_frames content ≠ [] →
  delete_frames input [] w
  = (Failed IndexError, World (files w) (written w ++ [input]) (printed w))
  ∧ move_frames input [] to_pos output copy_mode w = (Failed IndexError, w).
Proof.
  intros Hfile Hne. split.
  - unfold delete_frames. run_io. rewrite Hfile. simpl.
    rewrite bool_decide_eq_false_2 by done. simpl.
    by rewrite join_split_lines, insert_id.
  - unfold move_frames. run_io. rewrite Hfile. simpl.
    by rewrite bool_decide_eq_false_2.
Qed.

Lemma empty_positions_index_error_witness :
  let w := world_of [("a.tex", four_frames)] in
  delete_frames "a.tex" [] w
  = (Failed IndexError, World (files w) (written w ++ ["a.tex"]) (printed w))
  ∧ move_frames "a.tex" [] 1 None false w = (Failed IndexError, w).
Proof.
  intros w.
  apply (empty_positions_index_error w "a.tex" four_frames 1 None false).
  - vm_compute; reflexivity.
  - vm_compute. discriminate.
Defined.
